(** * snps: a shallow embedding of snps.go

    The Go program compares every sequence of a FASTA alignment with a
    reference.  Nucleotides are encoded as bytes following Emmanuel
    Paradis' bitwise scheme (upper nibble = set of bases A,G,C,T).
    This file models the encoding/decoding tables, the FASTA reader
    [readEncodeAlignment], the SNP finder [getSNPs] and the two writers
    [writeOutput] and [aggregateWriteOutput], and proves properties of
    them. *)

From Stdlib Require Import ZArith List String Ascii Bool Lia Sorting QArith Floats.SpecFloat.
From stdpp Require Import base gmap strings list fin_maps.
Import ListNotations.
Open Scope Z_scope.

(* ------------------------------------------------------------------ *)
(** ** Bytes and 256-entry tables *)

(** The byte value of an ASCII character literal. *)
Definition ch (c : ascii) : Z := Z.of_nat (nat_of_ascii c).

(** A Go slice [make([]T, 256)] written element by element:
    a table is a function from indices to contents, [upd] is
    [byteArray[k] = v]. *)
Definition upd {A} (t : Z -> A) (k : Z) (v : A) : Z -> A :=
  fun i => if Z.eqb i k then v else t i.

(** The sequence of assignments of a [make...Array] function, applied in
    order to a zero-initialised table. *)
Definition build {A} (zero : A) (ws : list (Z * A)) : Z -> A :=
  fold_left (fun t kv => upd t (fst kv) (snd kv)) ws (fun _ => zero).

(** [makeEncodingArray] (soft gaps). *)
Definition makeEncodingArray : Z -> Z :=
  build 0
    [ (ch "A", 136); (ch "a", 136); (ch "G", 72); (ch "g", 72);
      (ch "C", 40); (ch "c", 40); (ch "T", 24); (ch "t", 24);
      (ch "R", 192); (ch "r", 192); (ch "M", 160); (ch "m", 160);
      (ch "W", 144); (ch "w", 144); (ch "S", 96); (ch "s", 96);
      (ch "K", 80); (ch "k", 80); (ch "Y", 48); (ch "y", 48);
      (ch "V", 224); (ch "v", 224); (ch "H", 176); (ch "h", 176);
      (ch "D", 208); (ch "d", 208); (ch "B", 112); (ch "b", 112);
      (ch "N", 240); (ch "n", 240); (ch "-", 244); (ch "?", 242) ].

(** [makeEncodingArrayHardGaps]: identical except ['-'] is [4]. *)
Definition makeEncodingArrayHardGaps : Z -> Z :=
  build 0
    [ (ch "A", 136); (ch "a", 136); (ch "G", 72); (ch "g", 72);
      (ch "C", 40); (ch "c", 40); (ch "T", 24); (ch "t", 24);
      (ch "R", 192); (ch "r", 192); (ch "M", 160); (ch "m", 160);
      (ch "W", 144); (ch "w", 144); (ch "S", 96); (ch "s", 96);
      (ch "K", 80); (ch "k", 80); (ch "Y", 48); (ch "y", 48);
      (ch "V", 224); (ch "v", 224); (ch "H", 176); (ch "h", 176);
      (ch "D", 208); (ch "d", 208); (ch "B", 112); (ch "b", 112);
      (ch "N", 240); (ch "n", 240); (ch "-", 4); (ch "?", 242) ].

(** [makeDecodingArray]: the zero value of a Go string is [""]. *)
Definition makeDecodingArray : Z -> string :=
  build ""%string
    [ (136, "A"); (72, "G"); (40, "C"); (24, "T"); (192, "R");
      (160, "M"); (144, "W"); (96, "S"); (80, "K"); (48, "Y");
      (224, "V"); (176, "H"); (208, "D"); (112, "B"); (240, "N");
      (244, "-"); (242, "?") ]%string.

(** [makeDecodingArrayHardGaps]. *)
Definition makeDecodingArrayHardGaps : Z -> string :=
  build ""%string
    [ (136, "A"); (72, "G"); (40, "C"); (24, "T"); (192, "R");
      (160, "M"); (144, "W"); (96, "S"); (80, "K"); (48, "Y");
      (224, "V"); (176, "H"); (208, "D"); (112, "B"); (240, "N");
      (4, "-"); (242, "?") ]%string.

(** The [switch hardGaps] of [readEncodeAlignment] and [getSNPs]. *)
Definition encoding (hardGaps : bool) : Z -> Z :=
  if hardGaps then makeEncodingArrayHardGaps else makeEncodingArray.

Definition decoding (hardGaps : bool) : Z -> string :=
  if hardGaps then makeDecodingArrayHardGaps else makeDecodingArray.

(** The SNP test of [getSNPs]: [(refSeq[i] & nuc) < 16]. *)
Definition is_snp (r q : Z) : bool := Z.land r q <? 16.

(* ------------------------------------------------------------------ *)
(** ** The defined symbols and their IUPAC base sets *)

(** The symbol list of [TestEncoding]/[TestDecoding] in snps_test.go. *)
Definition nucs : list ascii :=
  [ "A"; "G"; "C"; "T"; "R"; "M"; "W"; "S"; "K"; "Y"; "V"; "H"; "D";
    "B"; "N"; "-"; "?";
    "a"; "g"; "c"; "t"; "r"; "m"; "w"; "s"; "k"; "y"; "v"; "h"; "d";
    "b"; "n" ]%char.

Inductive base := BA | BC | BG | BT.

Definition base_eqb (x y : base) : bool :=
  match x, y with
  | BA, BA | BC, BC | BG, BG | BT, BT => true
  | _, _ => false
  end.

(** The [lookupChar] table of [TestEncoding] (the IUPAC definitions),
    with the gap policy of the spec: under hard gaps ['-'] denotes no
    base at all, ['?'] stays fully ambiguous. *)
Definition iupac_bases (hardGaps : bool) (c : ascii) : list base :=
  match c with
  | "A" | "a" => [BA]
  | "C" | "c" => [BC]
  | "G" | "g" => [BG]
  | "T" | "t" => [BT]
  | "R" | "r" => [BA; BG]
  | "Y" | "y" => [BC; BT]
  | "S" | "s" => [BG; BC]
  | "W" | "w" => [BA; BT]
  | "K" | "k" => [BG; BT]
  | "M" | "m" => [BA; BC]
  | "B" | "b" => [BC; BG; BT]
  | "D" | "d" => [BA; BG; BT]
  | "H" | "h" => [BA; BC; BT]
  | "V" | "v" => [BA; BC; BG]
  | "N" | "n" | "?" => [BA; BC; BG; BT]
  | "-" => if hardGaps then [] else [BA; BC; BG; BT]
  | _ => []
  end%char.

Definition disjointb (xs ys : list base) : bool :=
  negb (existsb (fun x => existsb (base_eqb x) ys) xs).

(** [strings.ToUpper] on one ASCII character. *)
Definition to_upper (c : ascii) : ascii :=
  let n := nat_of_ascii c in
  if (97 <=? n)%nat && (n <=? 122)%nat then ascii_of_nat (n - 32) else c.

(** All pairs of a list; used to check the tables exhaustively. *)
Definition all_pairs {A} (l : list A) : list (A * A) :=
  flat_map (fun x => map (fun y => (x, y)) l) l.

(** The C1 check for one pair of symbols. *)
Definition snp_matches_iupac (hg : bool) (x y : ascii) : bool :=
  Bool.eqb (is_snp (encoding hg (ch x)) (encoding hg (ch y)))
           (disjointb (iupac_bases hg x) (iupac_bases hg y)).

(** The C5 check for one symbol. *)
Definition roundtrip_ok (hg : bool) (x : ascii) : bool :=
  String.eqb (decoding hg (encoding hg (ch x))) (String (to_upper x) EmptyString).

(* ------------------------------------------------------------------ *)
(** ** bufio.Scanner with ScanLines *)

(** A Go string or byte slice as its bytes. *)
Fixpoint bytes_of_string (s : string) : list Z :=
  match s with
  | EmptyString => []
  | String c r => ch c :: bytes_of_string r
  end.

(** [dropCR] of bufio: drop one trailing carriage return. *)
Definition dropCR (l : list Z) : list Z :=
  match rev l with
  | 13 :: r => rev r
  | _ => l
  end.

(** bufio.MaxScanTokenSize. *)
Definition maxScanTokenSize : nat := Nat.pow 2 16.

(** [s.Scan()]/[s.Bytes()] with the default [ScanLines] split function,
    over the whole input: the tokens returned, and whether scanning
    stopped with [ErrTooLong].  The buffer holds at most
    [maxScanTokenSize] bytes, so a line of that many bytes or more
    (before its newline) stops the scanner.  [cur] is the current line
    reversed, [len] its length. *)
Fixpoint scan_go (data : list Z) (cur : list Z) (len : nat)
  : list (list Z) * bool :=
  match data with
  | [] =>
      match cur with
      | [] => ([], false)
      | _ => if (maxScanTokenSize <=? len)%nat then ([], true)
             else ([dropCR (rev cur)], false)
      end
  | b :: rest =>
      if (maxScanTokenSize <=? len)%nat then ([], true)
      else if Z.eqb b 10 then
        let '(ts, e) := scan_go rest [] 0 in (dropCR (rev cur) :: ts, e)
      else scan_go rest (b :: cur) (S len)
  end.

Definition scan_lines (data : list Z) : list (list Z) * bool :=
  scan_go data [] 0.

(* ------------------------------------------------------------------ *)
(** ** strings.Fields(s)[0] *)

(** Length in bytes of the UTF-8 encoded [unicode.IsSpace] rune at the
    head of [s], or 0.  Continuation bytes never start one of these
    patterns, and Go's decoder consumes invalid bytes one at a time, so
    matching at every byte position follows Go's rune iteration. *)
Definition space_len (s : list Z) : nat :=
  match s with
  | b :: r =>
      if (9 <=? b) && (b <=? 13) || (b =? 32) then 1%nat
      else match b, r with
           | 194, c :: _ => if (c =? 133) || (c =? 160) then 2%nat else 0%nat
           | 225, 154 :: 128 :: _ => 3%nat
           | 226, 128 :: c :: _ =>
               if (128 <=? c) && (c <=? 138) || (c =? 168) || (c =? 169)
                  || (c =? 175) then 3%nat else 0%nat
           | 226, 129 :: 159 :: _ => 3%nat
           | 227, 128 :: 128 :: _ => 3%nat
           | _, _ => 0%nat
           end
  | [] => 0%nat
  end.

Fixpoint skip_spaces (fuel : nat) (s : list Z) : list Z :=
  match fuel with
  | O => s
  | S f => match space_len s with
           | O => s
           | n => skip_spaces f (skipn n s)
           end
  end.

Fixpoint take_field (fuel : nat) (s : list Z) : list Z :=
  match fuel, s with
  | S f, b :: r => match space_len s with
                   | O => b :: take_field f r
                   | _ => []
                   end
  | _, _ => []
  end.

(** [strings.Fields(s)[0]]: [None] when [s] has no field, where the
    indexing panics. *)
Definition first_field (s : list Z) : option (list Z) :=
  match skip_spaces (length s) s with
  | [] => None
  | s' => Some (take_field (length s') s')
  end.

(* ------------------------------------------------------------------ *)
(** ** readEncodeAlignment *)

Record encodedFastaRecord := mkRecord {
  ID : list Z;
  Description : list Z;
  Seq : list Z;
  idx : nat }.

(** What the reader sends, in order: records on [chnl], errors on
    [chnlerr].  The final [cdone <- true] is [EvDone]. *)
Inductive event :=
  | EvRecord (r : encodedFastaRecord)
  | EvError (msg : string)
  | EvDone.

(** Run-time panics of the reader: [line[0]] on an empty line, and
    [strings.Fields(description)[0]] on a description without fields. *)
Inductive fault := IndexLine0 | IndexFields0.

Record reader_state := mkState {
  first : bool;
  rid : list Z;
  rdescription : list Z;
  seqBuffer : list Z;
  counter : nat }.

Definition init_state : reader_state := mkState true [] [] [] 0.

(** [description = string(line[1:]); id = strings.Fields(description)[0]] *)
Definition set_header (st : reader_state) (line : list Z)
  : fault + reader_state :=
  let d := tl line in
  match first_field d with
  | None => inl IndexFields0
  | Some i => inr (mkState false i d (seqBuffer st) (counter st))
  end.

(** One iteration of [for s.Scan()]: the events sent and either a panic
    or the next state. *)
Definition read_step (enc : Z -> Z) (st : reader_state) (line : list Z)
  : list event * (fault + reader_state) :=
  match line with
  | [] => ([], inl IndexLine0)
  | b0 :: _ =>
      if first st then
        let evs := if Z.eqb b0 (ch ">") then []
                   else [EvError "badly formatted fasta file"] in
        (evs, set_header st line)
      else if Z.eqb b0 (ch ">") then
        let fr := mkRecord (rid st) (rdescription st) (seqBuffer st) (counter st) in
        let st' := mkState false (rid st) (rdescription st) [] (S (counter st)) in
        ([EvRecord fr], set_header st' line)
      else
        ([], inr (mkState false (rid st) (rdescription st)
                   (seqBuffer st ++ map enc line) (counter st)))
  end.

(** The loop, then the final record, the scanner error and [cdone]. *)
Fixpoint read_loop (enc : Z -> Z) (scanErr : bool) (st : reader_state)
         (lines : list (list Z)) : list event * option fault :=
  match lines with
  | [] =>
      let fr := mkRecord (rid st) (rdescription st) (seqBuffer st) (counter st) in
      (EvRecord fr ::
         (if scanErr then [EvError "bufio.Scanner: token too long"] else [])
         ++ [EvDone], None)
  | line :: rest =>
      match read_step enc st line with
      | (evs, inl f) => (evs, Some f)
      | (evs, inr st') =>
          let '(evs', r) := read_loop enc scanErr st' rest in (evs ++ evs', r)
      end
  end.

(** [readEncodeAlignment] on the bytes of an opened input. *)
Definition readEncodeAlignment (hardGaps : bool) (data : list Z)
  : list event * option fault :=
  let '(lines, err) := scan_lines data in
  read_loop (encoding hardGaps) err init_state lines.

(* ------------------------------------------------------------------ *)
(** ** strconv.Itoa *)

Definition digit_char (d : N) : ascii := ascii_of_N (48 + d).

(** Decimal digits of [n], prepended to [acc]; [fuel] bounds the number
    of digits (the bit length of [n] suffices). *)
Fixpoint utoa_go (fuel : nat) (n : N) (acc : string) : string :=
  match fuel with
  | O => acc
  | S f =>
      let acc' := String (digit_char (N.modulo n 10)) acc in
      if N.eqb (N.div n 10) 0 then acc' else utoa_go f (N.div n 10) acc'
  end.

Definition utoa (n : N) : string := utoa_go (S (N.size_nat n)) n EmptyString.

(** [strconv.Itoa]. *)
Definition itoa (z : Z) : string :=
  if z <? 0 then ("-" ++ utoa (Z.to_N (- z)))%string else utoa (Z.to_N z).

(* ------------------------------------------------------------------ *)
(** ** getSNPs *)

Record snpLine := mkSnpLine {
  queryname : list Z;
  snps : list string;
  sidx : nat }.

(** [for i, nuc := range FR.Seq], from index [i] on.  [refSeq[i]] out
    of range panics: [None]. *)
Fixpoint snps_loop (DA : Z -> string) (refSeq : list Z) (i : nat)
         (sq : list Z) : option (list string) :=
  match sq with
  | [] => Some []
  | nuc :: rest =>
      match nth_error refSeq i with
      | None => None
      | Some r =>
          match snps_loop DA refSeq (S i) rest with
          | None => None
          | Some calls =>
              if is_snp r nuc
              then Some ((DA r ++ itoa (Z.of_nat i + 1) ++ DA nuc)%string :: calls)
              else Some calls
          end
      end
  end.

(** The body of [for FR := range cFR] in [getSNPs]: one query record
    gives one [snpLine]. *)
Definition getSNPs_record (hardGaps : bool) (refSeq : list Z)
           (FR : encodedFastaRecord) : option snpLine :=
  match snps_loop (decoding hardGaps) refSeq 0 (Seq FR) with
  | None => None
  | Some calls => Some (mkSnpLine (ID FR) calls (idx FR))
  end.

(** The call recorded at position [i]. *)
Definition snp_call (hardGaps : bool) (refSeq q : list Z) (i : nat) : string :=
  (decoding hardGaps (nth i refSeq 0) ++ itoa (Z.of_nat i + 1)
   ++ decoding hardGaps (nth i q 0))%string.

(* ------------------------------------------------------------------ *)
(** ** writeOutput *)

(** [SL.queryname + "," + strings.Join(SL.snps, "|") + "\n"] *)
Definition render (SL : snpLine) : list Z :=
  queryname SL ++ bytes_of_string "," ++ bytes_of_string (String.concat "|" (snps SL))
  ++ [10].

Definition header_line : list Z := bytes_of_string "query,SNPs" ++ [10].

(** The zero value [snpLine{}] a Go map lookup returns for a missing key. *)
Definition zero_snpLine : snpLine := mkSnpLine [] [] 0.

(** The writer's state: [outputMap], [counter] and what was written. *)
Record writer_state := mkWriter {
  outputMap : gmap nat snpLine;
  wcounter : nat;
  written : list (list Z) }.

(** One iteration of [for snpLine := range cSNPs]. *)
Definition write_arrive (st : writer_state) (sl : snpLine) : writer_state :=
  let m := <[sidx sl := sl]> (outputMap st) in
  match m !! wcounter st with
  | Some SL => mkWriter (delete (wcounter st) m) (S (wcounter st))
                        (written st ++ [render SL])
  | None => mkWriter m (wcounter st) (written st)
  end.

(** The final [for n := 1; n > 0;] loop.  Go's loop is unbounded: it runs
    as long as the map is non-empty; [fuel] bounds the iterations and
    [None] means it did not stop within them. *)
Fixpoint write_flush (fuel : nat) (m : gmap nat snpLine) (c : nat)
         (out : list (list Z)) : option (list (list Z)) :=
  match fuel with
  | O => None
  | S f =>
      if Nat.eqb (size m) 0 then Some out
      else
        let SL := match m !! c with Some s => s | None => zero_snpLine end in
        write_flush f (delete c m) (S c) (out ++ [render SL])
  end.

(** [writeOutput]: the header, then the results in arrival order
    [arrivals] through the reorder buffer, then the final flush.  The
    result is the sequence of strings passed to [f.WriteString]. *)
Definition writeOutput (fuel : nat) (arrivals : list snpLine)
  : option (list (list Z)) :=
  let st := fold_left write_arrive arrivals (mkWriter ∅ 0 [header_line]) in
  write_flush fuel (outputMap st) (wcounter st) (written st).

(* ------------------------------------------------------------------ *)
(** ** strconv.Atoi *)

(** The loop of [strconv.ParseUint(s, 10, 64)] over the digits of [s]:
    [Some n] or [None] with the error kind ([true] = [ErrRange], value
    [maxUint64]; [false] = [ErrSyntax], value 0). *)
Definition maxUint64 : Z := 2 ^ 64 - 1.

Fixpoint parseUint_go (s : list Z) (n : Z) : Z * option bool :=
  match s with
  | [] => (n, None)
  | c :: r =>
      if (48 <=? c) && (c <=? 57) then
        let d := c - 48 in
        if maxUint64 / 10 + 1 <=? n then (maxUint64, Some true)
        else
          let n1 := (n * 10 + d) mod 2 ^ 64 in
          if (n1 <? n * 10 mod 2 ^ 64) || (maxUint64 <? n1)
          then (maxUint64, Some true)
          else parseUint_go r n1
      else (0, Some false)
  end.

(** [strconv.ParseUint(s, 10, 64)]. *)
Definition parseUint (s : list Z) : Z * option bool :=
  match s with
  | [] => (0, Some false)
  | _ => parseUint_go s 0
  end.

(** [strconv.ParseInt(s, 10, 64)]: the value and whether [err == nil]. *)
Definition parseInt (s : list Z) : Z * bool :=
  match s with
  | [] => (0, false)
  | c0 :: r =>
      let '(neg, digits) :=
        if c0 =? ch "+" then (false, r)
        else if c0 =? ch "-" then (true, r) else (false, s) in
      match parseUint digits with
      | (_, Some false) => (0, false)
      | (un, e) =>
          let cutoff := 2 ^ 63 in
          if negb neg && (cutoff <=? un) then (cutoff - 1, false)
          else if neg && (cutoff <? un) then (- cutoff, false)
          else ((if neg then - un else un), match e with None => true | _ => false end)
      end
  end.

(** The digit loop of the fast path of [strconv.Atoi]: [ch -= '0'] is a
    byte subtraction, so any byte other than a digit gives more than 9. *)
Fixpoint atoi_fast (s : list Z) (n : Z) : option Z :=
  match s with
  | [] => Some n
  | c :: r =>
      let d := (c - 48) mod 256 in
      if 9 <? d then None else atoi_fast r (n * 10 + d)
  end.

(** [strconv.Atoi] on a 64-bit platform: the value and whether
    [err == nil]. *)
Definition atoi (s : string) : Z * bool :=
  let b := bytes_of_string s in
  if (0 <? length b)%nat && (length b <? 19)%nat then
    match b with
    | [] => (0, false)
    | c0 :: r =>
        let signed := (c0 =? ch "-") || (c0 =? ch "+") in
        let digits := if signed then r else b in
        if signed && (length digits =? 0)%nat then (0, false)
        else match atoi_fast digits 0 with
             | None => (0, false)
             | Some n => ((if c0 =? ch "-" then - n else n), true)
             end
    end
  else parseInt b.

(* ------------------------------------------------------------------ *)
(** ** aggregateWriteOutput *)

(** The position field [s[1:len(s)-1]] with its [strconv.Atoi] result,
    and the allele byte [s[len(s)-1]]; [None] when the slice expression
    panics ([len(s) < 2]). *)
Definition parse_call (s : string) : option (Z * bool * Z) :=
  let n := String.length s in
  if (n <? 2)%nat then None
  else
    let p := atoi (substring 1 (n - 2) s) in
    let alt := match get (n - 1) s with Some c => ch c | None => 0 end in
    Some (fst p, snd p, alt).

(** The [less] function given to [sort.SliceStable]: the comparison and
    the number of errors it sends on [cErr]; [None] is a panic. *)
Definition agg_less (a b : string) : option (bool * nat) :=
  match parse_call a, parse_call b with
  | Some (pa, oka, alta), Some (pb, okb, altb) =>
      Some ((pa <? pb) || (pa =? pb) && (alta <? altb),
            ((if oka then 0 else 1) + (if okb then 0 else 1))%nat)
  | _, _ => None
  end.

(** One pass of the inner loop of Go's [insertionSort]
    ([for j := i; j > a && less(data[j], data[j-1]); j--] swap): the
    sorted prefix is kept reversed, [e] moves towards the front while it
    is less than its predecessor. *)
Fixpoint ins_go (e : string) (rl : list string) : option (list string * nat) :=
  match rl with
  | [] => Some ([e], 0%nat)
  | y :: r =>
      match agg_less e y with
      | None => None
      | Some (true, n) =>
          match ins_go e r with
          | None => None
          | Some (r', n') => Some (y :: r', (n + n')%nat)
          end
      | Some (false, n) => Some (e :: y :: r, n)
      end
  end.

Fixpoint sort_loop (rl : list string) (rest : list string)
  : option (list string * nat) :=
  match rest with
  | [] => Some (rl, 0%nat)
  | e :: rest' =>
      match ins_go e rl with
      | None => None
      | Some (rl', n) =>
          match sort_loop rl' rest' with
          | None => None
          | Some (rl'', n') => Some (rl'', (n + n')%nat)
          end
      end
  end.

(** [sort.SliceStable(order, less)]: the result and the number of errors
    sent.  Go sorts slices of at most 20 elements with exactly this
    insertion sort, making the same calls of [less] in the same order.
    Longer slices are sorted by insertion sorts of blocks of 20 and
    [symMerge]: the calls of [less], and so the errors sent, differ from
    this model, but the order is the same whenever [less] is a strict
    weak order, which is the case when every call parses. *)
Definition sliceStable (order : list string) : option (list string * nat) :=
  match sort_loop [] order with
  | None => None
  | Some (rl, n) => Some (rev rl, n)
  end.

(** [propMap] and [counter] are float64 in Go.  They only ever hold
    whole numbers (a count starts at [1.0] or [0.0] and grows by [1]),
    which float64 holds exactly below [2^53]: they are modelled by exact
    rationals with denominator 1. *)
Definition count_snps (pm : gmap string Q) (sl : snpLine) : gmap string Q :=
  fold_left (fun pm snp =>
               match pm !! snp with
               | Some c => <[snp := (c + 1)%Q]> pm
               | None => <[snp := 1%Q]> pm
               end) (snps sl) pm.

(** The [for snpLine := range cSNPs] loop: [counter] and [propMap]. *)
Definition tally (results : list snpLine) : Q * gmap string Q :=
  fold_left (fun acc sl => ((fst acc + 1)%Q, count_snps (snd acc) sl))
            results (0%Q, ∅).

(** float64 is IEEE 754 binary64: [SpecFloat] with 53 bits of precision
    and maximal exponent 1024; [SFdiv] rounds to nearest, ties to even. *)
Definition f64_prec : Z := 53.
Definition f64_emax : Z := 1024.

(** The float64 holding the whole-number count [c]. *)
Definition f64_of_count (c : Q) : spec_float :=
  binary_normalize f64_prec f64_emax (Qnum c) 0 false.

(** [propMap[snp]/counter]: float64 division ([propMap[snp]] is [0] for
    an absent key). *)
Definition proportion (counter : Q) (pm : gmap string Q) (snp : string) : spec_float :=
  SFdiv f64_prec f64_emax
        (f64_of_count (match pm !! snp with Some c => c | None => 0%Q end))
        (f64_of_count counter).

(** The output loop: the change and its proportion for every change whose
    proportion is not [< threshold] (float64 comparison: false when
    either side is NaN). *)
Definition emit (threshold : spec_float) (counter : Q) (pm : gmap string Q)
           (order : list string) : list (string * spec_float) :=
  flat_map (fun snp =>
              let p := proportion counter pm snp in
              if SFltb p threshold then [] else [(snp, p)]) order.

(** [aggregateWriteOutput]: the number of errors sent while sorting and
    the changes written after the header ["change,proportion"], each with
    the float64 it is printed from ([aggregate_text] gives the text).
    Go iterates [propMap] in an unspecified order: [enum] is that order.
    [None] is a panic of the sort's [less]. *)
Definition aggregateWriteOutput (threshold : spec_float) (results : list snpLine)
           (enum : list string) : option (nat * list (string * spec_float)) :=
  let '(counter, pm) := tally results in
  match sliceStable enum with
  | None => None
  | Some (order, nerr) => Some (nerr, emit threshold counter pm order)
  end.

(** [s] left-padded with zeros to 4 characters. *)
Definition pad4 (s : string) : string :=
  (String.concat EmptyString (repeat "0"%string (4 - String.length s)) ++ s)%string.

(** The digits of [m * 2^e] with 4 decimals, [m >= 0]: the exact value
    times [10^4] rounded to an integer, halfway cases to even (Go's
    [bigFtoa] with [decimal.Round]). *)
Definition fixed4 (m e : Z) : string :=
  let n := m * 10 ^ 4 in
  let q := if 0 <=? e then n * 2 ^ e
           else let d := 2 ^ (- e) in
                let q0 := n / d in
                let r := n mod d in
                if (d <? 2 * r) || ((2 * r =? d) && Z.odd q0) then q0 + 1 else q0 in
  (utoa (Z.to_N (q / 10 ^ 4)) ++ "." ++ pad4 (utoa (Z.to_N (q mod 10 ^ 4))))%string.

(** [strconv.FormatFloat(x, 'f', 4, 64)]. *)
Definition formatFloat_f4 (x : spec_float) : string :=
  match x with
  | S754_zero s => ((if s then "-" else EmptyString) ++ "0.0000")%string
  | S754_infinity s => if s then "-Inf"%string else "+Inf"%string
  | S754_nan => "NaN"%string
  | S754_finite s m e => ((if s then "-" else EmptyString) ++ fixed4 (Zpos m) e)%string
  end.

(** The text written to the output file. *)
Definition aggregate_text (lines : list (string * spec_float)) : string :=
  ("change,proportion" ++ String (ascii_of_nat 10) EmptyString
   ++ String.concat EmptyString (map (fun '(snp, p) =>
        snp ++ "," ++ formatFloat_f4 p ++ String (ascii_of_nat 10) EmptyString) lines))%string.

(** The keys of [propMap], in the order of [map_to_list]. *)
Definition propMap_keys (results : list snpLine) : list string :=
  map fst (map_to_list (snd (tally results))).

(** A call whose position field parses. *)
Definition well_formed_call (s : string) : Prop :=
  match parse_call s with
  | Some (_, true, _) => True
  | _ => False
  end.

(** The order the spec asks for: by position, then by allele byte. *)
Definition call_pos (s : string) : Z :=
  match parse_call s with Some (p, _, _) => p | None => 0 end.
Definition call_alt (s : string) : Z :=
  match parse_call s with Some (_, _, a) => a | None => 0 end.
Definition call_le (a b : string) : Prop :=
  call_pos a < call_pos b \/ (call_pos a = call_pos b /\ call_alt a <= call_alt b).

(** How many times [s] occurs among all calls of [results]. *)
Definition count_calls (results : list snpLine) (s : string) : nat :=
  count_occ string_dec (flat_map snps results) s.

(** A count as it is stored in [propMap]: absent when zero. *)
Definition qcount (n : nat) : option Q :=
  match n with O => None | S _ => Some (Z.of_nat n # 1) end.

(* ------------------------------------------------------------------ *)
(** ** Auxiliary definitions of the proofs *)

(** +0, a positive finite float or +inf. *)
Definition nonneg_float (x : spec_float) : Prop :=
  match x with
  | S754_zero false | S754_infinity false | S754_finite false _ _ => True
  | _ => False
  end.

(** The result carrying ordinal [k]. *)
Definition rec_of (R : list snpLine) (k : nat) : snpLine :=
  match find (fun s => Nat.eqb (sidx s) k) R with
  | Some s => s
  | None => zero_snpLine
  end.

(** Whether ordinal [k] is among the arrivals [p]. *)
Definition arrived (p : list snpLine) (k : nat) : bool :=
  existsb (fun s => Nat.eqb (sidx s) k) p.

(** The writer's invariant after the arrivals [p]. *)
Definition writer_inv (R : list snpLine) (p : list snpLine) (st : writer_state) : Prop :=
  written st = header_line :: map (fun k => render (rec_of R k)) (seq 0 (wcounter st)) /\
  (forall k, outputMap st !! k =
     if (wcounter st <=? k)%nat && arrived p k then Some (rec_of R k) else None) /\
  (forall k, (k < wcounter st)%nat -> arrived p k = true).

(** The strict order [less] computes on calls that parse. *)
Definition lt_call (a b : string) : bool :=
  (call_pos a <? call_pos b) || (call_pos a =? call_pos b) && (call_alt a <? call_alt b).

(** "[b] may stay after [a]" in the reversed prefix of [ins_go]. *)
Definition not_lt (x y : string) : Prop := lt_call x y = false.

(** Scenario F of the spec: four queries against [ATGATG]. *)
Definition scenarioF : list snpLine :=
  [ mkSnpLine [] [] 0; mkSnpLine [] ["G6C"]%string 1;
    mkSnpLine [] ["G3T"; "A4T"; "G6W"]%string 2;
    mkSnpLine [] ["G3T"; "A4T"]%string 3 ].

(** Ten query results, one of them with the call ["A1T"]. *)
Definition tenth_results : list snpLine :=
  mkSnpLine [] ["A1T"]%string 0 :: map (fun k => mkSnpLine [] [] k) (seq 1 9).

(** The float64 nearest 0.1, what [strconv.ParseFloat("0.1", 64)]
    returns: [7205759403792794 * 2^-56]. *)
Definition f64_point1 : spec_float := S754_finite false 7205759403792794 (-56).

(* ------------------------------------------------------------------ *)
(** ** The worker loop of [getSNPs] and the phases of [snps] *)

(** [for FR := range cFR] of [getSNPs]: one [snpLine] per record
    received; [None] is a panic on [refSeq[i]].  [snps] starts
    [runtime.NumCPU()] such workers on the one channel [cFR]: each record
    is received by exactly one of them, so together they send these
    results on [cSNPs], in an order fixed by the scheduler. *)
Fixpoint getSNPs (hardGaps : bool) (refSeq : list Z)
         (records : list encodedFastaRecord) : option (list snpLine) :=
  match records with
  | [] => Some []
  | FR :: rest =>
      match getSNPs_record hardGaps refSeq FR, getSNPs hardGaps refSeq rest with
      | Some SL, Some SLs => Some (SL :: SLs)
      | _, _ => None
      end
  end.

(** The records among what the reader sends, in the order sent. *)
Fixpoint records_of (evs : list event) : list encodedFastaRecord :=
  match evs with
  | [] => []
  | EvRecord r :: rest => r :: records_of rest
  | _ :: rest => records_of rest
  end.

(** The first loop of [snps]: a [select] over [cErr], [cRef] and
    [cRefDone] while the reference reader runs.  The channels are
    unbuffered and the reader is their only sender, so the loop receives
    what the reader sends, in order: a record sets [refSeq], an error is
    returned ([inl err]), done ends the loop with the reference
    [inr refSeq].  [None]: the reader stopped without sending done. *)
Fixpoint ref_loop (refSeq : list Z) (evs : list event) : option (string + list Z) :=
  match evs with
  | [] => None
  | EvRecord FR :: rest => ref_loop (Seq FR) rest
  | EvError err :: _ => Some (inl err)
  | EvDone :: _ => Some (inr refSeq)
  end.

(** The reference phase of [snps] on the bytes of the reference file
    ([var refSeq []byte] starts empty).  A panic of the reader ends the
    program: [None]. *)
Definition reference_phase (hardGaps : bool) (referenceData : list Z)
  : option (string + list Z) :=
  match readEncodeAlignment hardGaps referenceData with
  | (evs, None) => ref_loop [] evs
  | (_, Some _) => None
  end.

(* ------------------------------------------------------------------ *)
(** ** FASTA texts *)

(** A FASTA text: each entry is a header (the bytes after ['>']) and its
    sequence lines, every line ended by [eol]. *)
Definition fasta_text (eol : list Z) (entries : list (list Z * list (list Z))) : list Z :=
  flat_map (fun e => (ch ">" :: fst e) ++ eol ++ flat_map (fun l => l ++ eol) (snd e))
           entries.

(** [strings.Fields(description)[0]] where it exists. *)
Definition fasta_id (d : list Z) : list Z :=
  match first_field d with Some i => i | None => [] end.

(** The records the entries stand for, numbered from [k]. *)
Fixpoint fasta_records (enc : Z -> Z) (k : nat) (entries : list (list Z * list (list Z)))
  : list encodedFastaRecord :=
  match entries with
  | [] => []
  | e :: rest =>
      mkRecord (fasta_id (fst e)) (fst e) (map enc (concat (snd e))) k
        :: fasta_records enc (S k) rest
  end.

(** A line a scanner returns whole: no line feed or carriage return in
    it, and short enough for the scanner's buffer with its line end. *)
Definition plain_line (l : list Z) : Prop :=
  ~ In 10 l /\ ~ In 13 l /\ (S (length l) < maxScanTokenSize)%nat.

(** An entry the reader takes as written: a header line with a field,
    and non-empty sequence lines that do not start with ['>']. *)
Definition fasta_entry_ok (e : list Z * list (list Z)) : Prop :=
  plain_line (ch ">" :: fst e) /\ first_field (fst e) <> None /\
  Forall (fun l => plain_line l /\
                   match l with b :: _ => b <> ch ">" | [] => False end) (snd e).

(** [strings.ToUpper] on one byte of ASCII. *)
Definition upper_byte (b : Z) : Z :=
  if (97 <=? b) && (b <=? 122) then b - 32 else b.


(* ================================================================== *)
(** * Theorems *)

(** ** The symbol codec *)

Lemma forallb_pairs {A} (p : A -> A -> bool) (l : list A) x y :
  forallb (fun xy => p (fst xy) (snd xy)) (all_pairs l) = true ->
  In x l -> In y l -> p x y = true.
Proof.
  intros H Hx Hy. rewrite forallb_forall in H.
  apply (H (x, y)). unfold all_pairs. apply in_flat_map.
  exists x. split; [exact Hx|]. apply in_map_iff. now exists y.
Qed.

Lemma snp_matches_iupac_all (hg : bool) :
  forallb (fun xy => snp_matches_iupac hg (fst xy) (snd xy)) (all_pairs nucs) = true.
Proof. destruct hg; vm_compute; reflexivity. Qed.

(** C1: for every pair of defined symbols and both gap policies, the SNP
    predicate [encode x & encode y < 16] holds iff the IUPAC base sets of
    [x] and [y] are disjoint. *)
Theorem snp_test_iff_disjoint (hg : bool) (x y : ascii) :
  In x nucs -> In y nucs ->
  (is_snp (encoding hg (ch x)) (encoding hg (ch y)) = true <->
   disjointb (iupac_bases hg x) (iupac_bases hg y) = true).
Proof.
  intros Hx Hy.
  pose proof (forallb_pairs (snp_matches_iupac hg) nucs x y
                (snp_matches_iupac_all hg) Hx Hy) as H.
  unfold snp_matches_iupac in H. apply Bool.eqb_prop in H.
  rewrite H. reflexivity.
Qed.

Lemma snp_test_iff_disjoint_witness :
  (In "W"%char nucs /\ In "g"%char nucs) /\
  (is_snp (encoding false (ch "W")) (encoding false (ch "g")) = true <->
   disjointb (iupac_bases false "W") (iupac_bases false "g") = true).
Proof.
  split; [split; simpl; tauto|].
  apply snp_test_iff_disjoint; simpl; tauto.
Defined.

(** C3 (as stated, refuted): in soft-gap mode ['-'] and ['N'] do not
    share a code: ['-'] is 244 and ['N'] is 240. *)
Lemma soft_gap_code_differs_from_N :
  encoding false (ch "-") <> encoding false (ch "N").
Proof. vm_compute. discriminate. Qed.

Lemma forall_bytes (p : Z -> bool) :
  forallb p (map Z.of_nat (seq 0 256)) = true ->
  forall y, 0 <= y < 256 -> p y = true.
Proof.
  intros H y Hy. rewrite forallb_forall in H. apply H.
  apply in_map_iff. exists (Z.to_nat y). split; [lia|].
  apply in_seq. lia.
Qed.

(** C3 (amended): in soft-gap mode ['-'] (244) and ['?'] (242) have all
    four base bits set, like ['N'] (240), but the three codes are
    distinct; against every byte code the SNP test of ['-'] and of ['?']
    gives the same answer as that of ['N']. *)
Theorem soft_gap_like_N :
  Z.shiftr (encoding false (ch "-")) 4 = 15 /\
  Z.shiftr (encoding false (ch "?")) 4 = 15 /\
  Z.shiftr (encoding false (ch "N")) 4 = 15 /\
  encoding false (ch "-") <> encoding false (ch "N") /\
  encoding false (ch "?") <> encoding false (ch "N") /\
  encoding false (ch "-") <> encoding false (ch "?") /\
  (forall y, 0 <= y < 256 ->
     is_snp (encoding false (ch "-")) y = is_snp (encoding false (ch "N")) y /\
     is_snp (y) (encoding false (ch "-")) = is_snp y (encoding false (ch "N")) /\
     is_snp (encoding false (ch "?")) y = is_snp (encoding false (ch "N")) y /\
     is_snp y (encoding false (ch "?")) = is_snp y (encoding false (ch "N"))).
Proof.
  split; [vm_compute; reflexivity|].
  split; [vm_compute; reflexivity|].
  split; [vm_compute; reflexivity|].
  split; [vm_compute; discriminate|].
  split; [vm_compute; discriminate|].
  split; [vm_compute; discriminate|].
  intros y Hy.
  pose proof (forall_bytes (fun y =>
     Bool.eqb (is_snp (encoding false (ch "-")) y) (is_snp (encoding false (ch "N")) y)
  && Bool.eqb (is_snp y (encoding false (ch "-"))) (is_snp y (encoding false (ch "N")))
  && Bool.eqb (is_snp (encoding false (ch "?")) y) (is_snp (encoding false (ch "N")) y)
  && Bool.eqb (is_snp y (encoding false (ch "?"))) (is_snp y (encoding false (ch "N"))))
     ltac:(vm_compute; reflexivity) y Hy) as H.
  repeat rewrite andb_true_iff in H.
  destruct H as [[[H1 H2] H3] H4].
  apply Bool.eqb_prop in H1, H2, H3, H4. tauto.
Qed.

(** C5: for every defined symbol and both gap policies,
    [decode (encode x)] is the upper-case form of [x]. *)
Theorem decode_encode_upper (hg : bool) (x : ascii) :
  In x nucs ->
  decoding hg (encoding hg (ch x)) = String (to_upper x) EmptyString.
Proof.
  intros Hx.
  assert (H : forallb (roundtrip_ok hg) nucs = true)
    by (destruct hg; vm_compute; reflexivity).
  rewrite forallb_forall in H. apply String.eqb_eq, H, Hx.
Qed.

Lemma decode_encode_upper_witness :
  In "y"%char nucs /\
  decoding true (encoding true (ch "y")) = String (to_upper "y") EmptyString.
Proof.
  split; [simpl; tauto|]. apply decode_encode_upper. simpl; tauto.
Defined.

(** C10: under hard gaps only ['-'] among the defined symbols has its four
    base bits cleared; ['?'] is 242, and for every defined symbol [x]
    with a non-empty IUPAC base set the SNP test of ['?'] against [x]
    (either way round) is false: ['?'] is never called. *)
Theorem hard_gap_question_mark_never_called :
  encoding true (ch "?") = 242 /\
  (forall x, In x nucs ->
     (Z.shiftr (encoding true (ch x)) 4 = 0 <-> x = "-"%char)) /\
  (forall x, In x nucs -> iupac_bases true x <> [] ->
     is_snp (encoding true (ch "?")) (encoding true (ch x)) = false /\
     is_snp (encoding true (ch x)) (encoding true (ch "?")) = false).
Proof.
  split; [vm_compute; reflexivity|]. split.
  - intros x Hx.
    repeat (destruct Hx as [<- | Hx]; [vm_compute; split; congruence|]).
    destruct Hx.
  - intros x Hx Hne.
    repeat (destruct Hx as [<- | Hx];
            [try (vm_compute in Hne; congruence); vm_compute; split; reflexivity|]).
    destruct Hx.
Qed.

Example read_example :
  readEncodeAlignment false (bytes_of_string ">r x
AC
G
>q
T") =
  ([EvRecord (mkRecord (bytes_of_string "r") (bytes_of_string "r x")
                       [136; 40; 72] 0);
    EvRecord (mkRecord (bytes_of_string "q") (bytes_of_string "q") [24] 1);
    EvDone], None).
Proof. vm_compute. reflexivity. Qed.

(** ** The alignment reader *)

Lemma read_step_no_done enc st line :
  ~ In EvDone (fst (read_step enc st line)).
Proof.
  unfold read_step. destruct line as [|b0 l]; simpl; [tauto|].
  destruct (first st); [destruct (Z.eqb b0 (ch ">")); simpl; intuition discriminate|].
  destruct (Z.eqb b0 (ch ">")); simpl; intuition discriminate.
Qed.

Lemma read_loop_empty_line enc e st lines :
  In [] lines ->
  exists evs f, read_loop enc e st lines = (evs, Some f) /\ ~ In EvDone evs.
Proof.
  revert st. induction lines as [|line rest IH]; intros st Hin; [destruct Hin|].
  simpl. destruct line as [|b0 l].
  - exists [], IndexLine0. simpl. tauto.
  - destruct Hin as [Heq | Hin]; [discriminate|].
    pose proof (read_step_no_done enc st (b0 :: l)) as Hnd.
    destruct (read_step enc st (b0 :: l)) as [evs [f | st']] eqn:Hs.
    + exists evs, f. simpl in Hnd. tauto.
    + destruct (IH st' Hin) as (evs' & f & Hr & Hnd').
      rewrite Hr. exists (evs ++ evs'), f. split; [reflexivity|].
      rewrite in_app_iff. simpl in Hnd. tauto.
Qed.

(** C8 (as stated, refuted): an input whose first non-empty line is
    ["ACGT"] but which starts with an empty line makes the reader fault
    on [line[0]] instead of reporting a format error. *)
Lemma leading_blank_line_no_format_error :
  readEncodeAlignment false (bytes_of_string "
ACGT
") = ([], Some IndexLine0).
Proof. vm_compute. reflexivity. Qed.

(** C8 (amended): if the first line returned by the scanner is non-empty
    and does not start with ['>'], the first thing the reader sends is the
    format error ["badly formatted fasta file"], before any record; if the
    first line is empty, the reader faults on [line[0]] without sending
    anything (empty lines are not skipped). *)
Theorem first_line_not_header_format_error (hg : bool) (data : list Z) :
  (forall b0 l rest err,
     scan_lines data = ((b0 :: l) :: rest, err) -> b0 <> ch ">" ->
     exists evs r,
       readEncodeAlignment hg data =
         (EvError "badly formatted fasta file" :: evs, r)) /\
  (forall rest err,
     scan_lines data = ([] :: rest, err) ->
     readEncodeAlignment hg data = ([], Some IndexLine0)).
Proof.
  split.
  - intros b0 l rest err Hs Hb. unfold readEncodeAlignment. rewrite Hs.
    simpl. apply Z.eqb_neq in Hb. rewrite Hb.
    destruct (set_header init_state (b0 :: l)) as [f | st'].
    + eexists [], (Some f). reflexivity.
    + destruct (read_loop (encoding hg) err st' rest) as [evs' r].
      eexists evs', r. reflexivity.
  - intros rest err Hs. unfold readEncodeAlignment. rewrite Hs. reflexivity.
Qed.

Lemma first_line_not_header_format_error_witness :
  exists evs r,
    readEncodeAlignment false (bytes_of_string "ACGT
>q
A") = (EvError "badly formatted fasta file" :: evs, r).
Proof.
  apply (proj1 (first_line_not_header_format_error false
                 (bytes_of_string "ACGT
>q
A")) (ch "A") (bytes_of_string "CGT") [bytes_of_string ">q"; [ch "A"]] false).
  - vm_compute. reflexivity.
  - vm_compute. discriminate.
Defined.

(** C9: the reader indexes [line[0]] of every scanned line: whenever the
    scanner returns an empty line, the reader ends in an index panic
    (at that line, or at an earlier header without fields) and never
    signals completion; an empty first line faults immediately. *)
Theorem empty_line_faults (hg : bool) (data : list Z) :
  (In [] (fst (scan_lines data)) ->
   exists evs f, readEncodeAlignment hg data = (evs, Some f) /\ ~ In EvDone evs) /\
  (forall rest err, scan_lines data = ([] :: rest, err) ->
   readEncodeAlignment hg data = ([], Some IndexLine0)).
Proof.
  split.
  - unfold readEncodeAlignment. destruct (scan_lines data) as [lines err].
    simpl. apply read_loop_empty_line.
  - intros rest err Hs. unfold readEncodeAlignment. rewrite Hs. reflexivity.
Qed.

Lemma empty_line_faults_witness :
  In [] (fst (scan_lines (bytes_of_string ">q
AC

GT
"))) /\
  exists evs f, readEncodeAlignment true (bytes_of_string ">q
AC

GT
") = (evs, Some f) /\ ~ In EvDone evs.
Proof.
  split; [vm_compute; tauto|].
  apply (proj1 (empty_line_faults true _)). vm_compute. tauto.
Defined.

(** ** The diff engine *)

Example itoa_examples :
  itoa 6 = "6"%string /\ itoa 1234 = "1234"%string /\ itoa 0 = "0"%string
  /\ itoa (-12) = "-12"%string.
Proof. vm_compute. repeat split. Qed.

Example getSNPs_scenario_C :
  getSNPs_record false (map (encoding false) (bytes_of_string "ATGATG"))
    (mkRecord (bytes_of_string "Query3") (bytes_of_string "Query3")
              (map (encoding false) (bytes_of_string "ATTTTW")) 2)
  = Some (mkSnpLine (bytes_of_string "Query3") ["G3T"; "A4T"; "G6W"]%string 2).
Proof. vm_compute. reflexivity. Qed.

Lemma snps_loop_spec DA refSeq k sq :
  (k + length sq <= length refSeq)%nat ->
  exists idxs,
    snps_loop DA refSeq k sq =
      Some (map (fun i => (DA (nth i refSeq 0) ++ itoa (Z.of_nat i + 1)
                           ++ DA (nth (i - k) sq 0))%string) idxs) /\
    StronglySorted lt idxs /\
    (forall i, In i idxs <->
       (k <= i < k + length sq)%nat /\
       is_snp (nth i refSeq 0) (nth (i - k) sq 0) = true).
Proof.
  revert k. induction sq as [|nuc rest IH]; intros k Hlen.
  - exists []. simpl. split; [reflexivity|]. split; [constructor|].
    intros i. simpl. lia.
  - simpl in Hlen. simpl.
    destruct (nth_error refSeq k) as [r|] eqn:Hr;
      [|apply nth_error_None in Hr; lia].
    assert (Hrk : nth k refSeq 0 = r) by (apply nth_error_nth; exact Hr).
    destruct (IH (S k) ltac:(lia)) as (idxs & Hl & Hs & Hm).
    rewrite Hl.
    assert (Hmap : map (fun i => (DA (nth i refSeq 0) ++ itoa (Z.of_nat i + 1)
                                  ++ DA (nth (i - S k) rest 0))%string) idxs =
                   map (fun i => (DA (nth i refSeq 0) ++ itoa (Z.of_nat i + 1)
                                  ++ DA (nth (i - k) (nuc :: rest) 0))%string) idxs).
    { apply List.map_ext_in. intros i Hi. apply Hm in Hi.
      replace (i - k)%nat with (S (i - S k)) by lia. reflexivity. }
    rewrite Hmap.
    destruct (is_snp r nuc) eqn:Hsnp.
    + exists (k :: idxs). split.
      * simpl. rewrite Hrk, Nat.sub_diag. reflexivity.
      * split.
        -- constructor; [exact Hs|]. apply List.Forall_forall. intros i Hi.
           apply Hm in Hi. lia.
        -- intros i. simpl. split.
           ++ intros [<- | Hi].
              ** rewrite Nat.sub_diag, Hrk. split; [lia | exact Hsnp].
              ** apply Hm in Hi. destruct Hi as [Hi1 Hi2].
                 replace (i - k)%nat with (S (i - S k)) by lia.
                 split; [lia | exact Hi2].
           ++ intros [Hi1 Hi2].
              destruct (Nat.eq_dec i k) as [->|Hne]; [left; reflexivity|].
              right. apply Hm. split; [lia|].
              replace (i - k)%nat with (S (i - S k)) in Hi2 by lia. exact Hi2.
    + exists idxs. split; [reflexivity|]. split; [exact Hs|].
      intros i. rewrite Hm. split.
      * intros [Hi1 Hi2].
        replace (i - k)%nat with (S (i - S k)) by lia.
        split; [lia | exact Hi2].
      * intros [Hi1 Hi2].
        destruct (Nat.eq_dec i k) as [->|Hne].
        -- rewrite Nat.sub_diag, Hrk in Hi2. simpl in Hi2. congruence.
        -- replace (i - k)%nat with (S (i - S k)) in Hi2 by lia.
           split; [lia | exact Hi2].
Qed.

(** C2: for a query record no longer than the reference, [getSNPs]
    records a call at position [i] exactly when
    [(reference[i] & query[i]) < 16]; the call is
    [decode(reference[i]) ++ Itoa(i+1) ++ decode(query[i])], and the
    calls appear in strictly increasing position order. *)
Theorem getSNPs_calls (hg : bool) (refSeq : list Z) (FR : encodedFastaRecord) :
  (length (Seq FR) <= length refSeq)%nat ->
  exists idxs,
    getSNPs_record hg refSeq FR =
      Some (mkSnpLine (ID FR) (map (snp_call hg refSeq (Seq FR)) idxs) (idx FR)) /\
    StronglySorted lt idxs /\
    (forall i, In i idxs <->
       (i < length (Seq FR))%nat /\
       is_snp (nth i refSeq 0) (nth i (Seq FR) 0) = true).
Proof.
  intros Hlen.
  destruct (snps_loop_spec (decoding hg) refSeq 0 (Seq FR) Hlen)
    as (idxs & Hl & Hs & Hm).
  exists idxs. unfold getSNPs_record. rewrite Hl. split.
  - f_equal. f_equal. apply map_ext. intros i. unfold snp_call.
    rewrite Nat.sub_0_r. reflexivity.
  - split; [exact Hs|]. intros i. rewrite Hm. rewrite Nat.sub_0_r.
    split; intros [H1 H2]; (split; [lia | exact H2]).
Qed.

Lemma getSNPs_calls_witness :
  (length (Seq (mkRecord [] [] (map (encoding true) (bytes_of_string "--GATG")) 0))
     <= length (map (encoding true) (bytes_of_string "ATGATG")))%nat /\
  exists idxs,
    getSNPs_record true (map (encoding true) (bytes_of_string "ATGATG"))
      (mkRecord [] [] (map (encoding true) (bytes_of_string "--GATG")) 0) =
      Some (mkSnpLine [] (map (snp_call true (map (encoding true) (bytes_of_string "ATGATG"))
                                 (map (encoding true) (bytes_of_string "--GATG"))) idxs) 0) /\
    StronglySorted lt idxs /\
    (forall i, In i idxs <->
       (i < length (map (encoding true) (bytes_of_string "--GATG")))%nat /\
       is_snp (nth i (map (encoding true) (bytes_of_string "ATGATG")) 0)
              (nth i (map (encoding true) (bytes_of_string "--GATG")) 0) = true).
Proof.
  split; [vm_compute; lia|].
  apply (getSNPs_calls true _ (mkRecord [] [] (map (encoding true) (bytes_of_string "--GATG")) 0)).
  vm_compute. lia.
Defined.

(** ** The ordered writer *)

Example writeOutput_scrambled :
  writeOutput 5 [mkSnpLine [ch "b"] ["G6C"%string] 1;
                 mkSnpLine [ch "c"] [] 2;
                 mkSnpLine [ch "a"] ["A1-"; "T2-"]%string 0] =
  Some [header_line; bytes_of_string "a,A1-|T2-"  ++ [10];
        bytes_of_string "b,G6C" ++ [10]; bytes_of_string "c," ++ [10]].
Proof. vm_compute. reflexivity. Qed.

Section OrderedWriter.

Variable R : list snpLine.
Variable N : nat.
Hypothesis HR : Permutation (map sidx R) (seq 0 N).



Lemma R_nodup : List.NoDup (map sidx R).
Proof. apply (Permutation_NoDup (Permutation_sym HR)), seq_NoDup. Qed.

Lemma in_R_idx k : In k (map sidx R) <-> (k < N)%nat.
Proof.
  split; intros H.
  - apply (Permutation_in _ HR) in H. apply in_seq in H. lia.
  - apply (Permutation_in _ (Permutation_sym HR)). apply in_seq. lia.
Qed.

Lemma find_idx_unique (l : list snpLine) s :
  List.NoDup (map sidx l) -> In s l ->
  find (fun x => Nat.eqb (sidx x) (sidx s)) l = Some s.
Proof.
  induction l as [|a l IH]; intros Hnd Hin; [destruct Hin|].
  simpl in Hnd. inversion Hnd as [|? ? Hna Hnd']; subst.
  simpl. destruct (Nat.eqb (sidx a) (sidx s)) eqn:E.
  - apply Nat.eqb_eq in E. destruct Hin as [-> | Hin]; [reflexivity|].
    exfalso. apply Hna. rewrite E. apply in_map. exact Hin.
  - destruct Hin as [-> | Hin]; [rewrite Nat.eqb_refl in E; discriminate|].
    apply IH; assumption.
Qed.

Lemma rec_of_sidx s : In s R -> rec_of R (sidx s) = s.
Proof.
  intros Hin. unfold rec_of. rewrite (find_idx_unique R s R_nodup Hin).
  reflexivity.
Qed.

Lemma rec_of_spec k :
  In k (map sidx R) -> In (rec_of R k) R /\ sidx (rec_of R k) = k.
Proof.
  intros Hk. apply in_map_iff in Hk. destruct Hk as (s & <- & Hs).
  rewrite (rec_of_sidx s Hs). split; [exact Hs | reflexivity].
Qed.


Lemma arrived_app p s k :
  arrived (p ++ [s]) k = arrived p k || Nat.eqb (sidx s) k.
Proof.
  unfold arrived. rewrite existsb_app. simpl. rewrite orb_false_r. reflexivity.
Qed.

Lemma arrived_in p k : arrived p k = true -> In k (map sidx p).
Proof.
  unfold arrived. intros H. apply existsb_exists in H.
  destruct H as (s & Hs & E). apply Nat.eqb_eq in E. subst k.
  apply in_map. exact Hs.
Qed.

Lemma writer_inv_step p q s st :
  R = p ++ s :: q -> writer_inv R p st -> writer_inv R (p ++ [s]) (write_arrive st s).
Proof.
  intros HRpq (Hw & Hm & Hc).
  assert (Hns : ~ In (sidx s) (map sidx p)).
  { pose proof R_nodup as Hnd. rewrite HRpq, map_app in Hnd. simpl in Hnd.
    apply NoDup_remove_2 in Hnd. rewrite in_app_iff in Hnd. tauto. }
  assert (HsR : In s R) by (rewrite HRpq; apply in_or_app; simpl; tauto).
  assert (Hge : (wcounter st <= sidx s)%nat).
  { destruct (Nat.le_gt_cases (wcounter st) (sidx s)) as [H|H]; [exact H|].
    exfalso. apply Hns, arrived_in, Hc, H. }
  assert (Hm1 : forall k, (<[sidx s := s]> (outputMap st)) !! k =
     if (wcounter st <=? k)%nat && arrived (p ++ [s]) k then Some (rec_of R k) else None).
  { intros k. rewrite arrived_app. destruct (Nat.eq_dec (sidx s) k) as [<-|Hne].
    - rewrite lookup_insert_eq, Nat.eqb_refl, orb_true_r.
      apply Nat.leb_le in Hge. rewrite Hge. simpl. rewrite rec_of_sidx; auto.
    - rewrite lookup_insert_ne by exact Hne. rewrite Hm.
      apply Nat.eqb_neq in Hne. rewrite Hne, orb_false_r. reflexivity. }
  unfold write_arrive. rewrite (Hm1 (wcounter st)). rewrite Nat.leb_refl. simpl.
  destruct (arrived (p ++ [s]) (wcounter st)) eqn:Ha.
  - unfold writer_inv. cbn [written wcounter outputMap]. split; [|split].
    + rewrite Hw, seq_S, map_app. reflexivity.
    + intros k. destruct (Nat.eq_dec (wcounter st) k) as [<-|Hne].
      * rewrite lookup_delete_eq. rewrite (proj2 (Nat.leb_gt _ _)) by lia. reflexivity.
      * rewrite lookup_delete_ne by exact Hne. rewrite Hm1.
        destruct (Nat.leb_spec (wcounter st) k), (Nat.leb_spec (S (wcounter st)) k);
          try reflexivity; lia.
    + intros k Hk. destruct (Nat.eq_dec k (wcounter st)) as [->|Hne]; [exact Ha|].
      rewrite arrived_app, Hc by lia. reflexivity.
  - unfold writer_inv. simpl. split; [exact Hw|]. split; [exact Hm1|].
    intros k Hk. rewrite arrived_app, Hc by exact Hk. reflexivity.
Qed.

Lemma writer_inv_fold p q st :
  R = p ++ q -> writer_inv R p st -> writer_inv R R (fold_left write_arrive q st).
Proof.
  revert p st. induction q as [|s q IH]; intros p st HRpq Hinv.
  - simpl. rewrite app_nil_r in HRpq. subst. exact Hinv.
  - simpl. apply (IH (p ++ [s])).
    + rewrite HRpq, <- app_assoc. reflexivity.
    + apply (writer_inv_step p q); assumption.
Qed.

Lemma arrived_R k : arrived R k = (k <? N)%nat.
Proof.
  destruct (arrived R k) eqn:E.
  - apply arrived_in, in_R_idx in E. symmetry. apply Nat.ltb_lt. exact E.
  - symmetry. apply Nat.ltb_ge. destruct (Nat.le_gt_cases N k) as [H|H]; [exact H|].
    exfalso. apply in_R_idx in H. apply in_map_iff in H.
    destruct H as (s & <- & Hs). unfold arrived in E.
    assert (existsb (fun x => Nat.eqb (sidx x) (sidx s)) R = true)
      by (apply existsb_exists; exists s; rewrite Nat.eqb_refl; auto).
    congruence.
Qed.

Lemma write_flush_spec fuel m c out :
  (N - c < fuel)%nat ->
  (forall k, m !! k = if (c <=? k)%nat && (k <? N)%nat then Some (rec_of R k) else None) ->
  write_flush fuel m c out =
    Some (out ++ map (fun k => render (rec_of R k)) (seq c (N - c))).
Proof.
  revert m c out. induction fuel as [|f IH]; intros m c out Hf Hm; [lia|].
  simpl. destruct (Nat.lt_ge_cases c N) as [Hlt|Hge].
  - assert (Hmc : m !! c = Some (rec_of R c)).
    { rewrite Hm, Nat.leb_refl. apply Nat.ltb_lt in Hlt. rewrite Hlt. reflexivity. }
    assert (Hsz : Nat.eqb (size m) 0 = false).
    { apply Nat.eqb_neq. intros H0. apply map_size_empty_iff in H0.
      rewrite H0, lookup_empty in Hmc. discriminate. }
    rewrite Hsz, Hmc. rewrite IH.
    + replace (N - c)%nat with (S (N - S c)) by lia. simpl.
      rewrite <- app_assoc. reflexivity.
    + lia.
    + intros k. destruct (Nat.eq_dec c k) as [<-|Hne].
      * rewrite lookup_delete_eq. rewrite (proj2 (Nat.leb_gt _ _)) by lia. reflexivity.
      * rewrite lookup_delete_ne by exact Hne. rewrite Hm.
        destruct (Nat.leb_spec c k), (Nat.leb_spec (S c) k); try reflexivity; lia.
  - assert (Hemp : m = ∅).
    { apply map_empty. intros k. rewrite Hm.
      destruct (Nat.leb_spec c k), (Nat.ltb_spec k N); try reflexivity; lia. }
    rewrite Hemp, map_size_empty. simpl.
    replace (N - c)%nat with 0%nat by lia. simpl. rewrite app_nil_r. reflexivity.
Qed.

Lemma writeOutput_R fuel :
  (N < fuel)%nat ->
  writeOutput fuel R =
    Some (header_line :: map (fun k => render (rec_of R k)) (seq 0 N)).
Proof.
  intros Hf. unfold writeOutput.
  assert (Hinv0 : writer_inv R [] (mkWriter ∅ 0 [header_line])).
  { split; [reflexivity|]. split.
    - intros k. cbn [outputMap]. rewrite lookup_empty. reflexivity.
    - intros k Hk. simpl in Hk. lia. }
  destruct (writer_inv_fold [] R _ eq_refl Hinv0) as (Hw & Hm & Hc).
  set (st := fold_left write_arrive R (mkWriter ∅ 0 [header_line])) in *.
  assert (HcN : (wcounter st <= N)%nat).
  { destruct (Nat.le_gt_cases (wcounter st) N) as [H|H]; [exact H|].
    specialize (Hc N H). rewrite arrived_R, Nat.ltb_irrefl in Hc. discriminate. }
  rewrite (write_flush_spec fuel (outputMap st) (wcounter st) (written st)).
  - rewrite Hw. simpl. f_equal. f_equal.
    rewrite <- map_app, <- seq_app. f_equal. f_equal. lia.
  - lia.
  - intros k. rewrite Hm, arrived_R. reflexivity.
Qed.

Lemma sorted_R_perm :
  Permutation (map (rec_of R) (seq 0 N)) R /\ map sidx (map (rec_of R) (seq 0 N)) = seq 0 N.
Proof.
  split.
  - assert (Hid : map (rec_of R) (map sidx R) = R).
    { rewrite map_map. rewrite <- (map_id R) at 2. apply List.map_ext_in.
      intros s Hs. apply rec_of_sidx, Hs. }
    apply (Permutation_trans (l' := map (rec_of R) (map sidx R))); [|rewrite Hid; reflexivity].
    apply Permutation_map, Permutation_sym, HR.
  - rewrite map_map. rewrite <- (map_id (seq 0 N)) at 2. apply List.map_ext_in.
    intros k Hk. apply rec_of_spec. apply in_R_idx. apply in_seq in Hk. lia.
Qed.

End OrderedWriter.

(** C4: for results carrying the distinct ordinals [0 .. N-1], arriving in
    any order, [writeOutput] writes the header and then exactly one line
    per result, in increasing ordinal order (the final loop flushes what
    is still buffered, in ordinal order). *)
Theorem writeOutput_ordered (arrivals : list snpLine) (N fuel : nat) :
  Permutation (map sidx arrivals) (seq 0 N) -> (N < fuel)%nat ->
  exists sorted,
    Permutation sorted arrivals /\ map sidx sorted = seq 0 N /\
    writeOutput fuel arrivals = Some (header_line :: map render sorted).
Proof.
  intros HR Hf. exists (map (rec_of arrivals) (seq 0 N)).
  destruct (sorted_R_perm arrivals N HR) as [Hp Hs].
  split; [exact Hp|]. split; [exact Hs|].
  rewrite (writeOutput_R arrivals N HR fuel Hf). rewrite map_map. reflexivity.
Qed.

Lemma writeOutput_ordered_witness :
  (Permutation (map sidx [mkSnpLine [ch "b"] ["G6C"%string] 1;
                          mkSnpLine [ch "c"] [] 2; mkSnpLine [ch "a"] [] 0]) (seq 0 3)
   /\ (3 < 4)%nat) /\
  exists sorted,
    Permutation sorted [mkSnpLine [ch "b"] ["G6C"%string] 1;
                        mkSnpLine [ch "c"] [] 2; mkSnpLine [ch "a"] [] 0] /\
    map sidx sorted = seq 0 3 /\
    writeOutput 4 [mkSnpLine [ch "b"] ["G6C"%string] 1;
                   mkSnpLine [ch "c"] [] 2; mkSnpLine [ch "a"] [] 0] =
      Some (header_line :: map render sorted).
Proof.
  assert (Hp : Permutation (map sidx [mkSnpLine [ch "b"] ["G6C"%string] 1;
                          mkSnpLine [ch "c"] [] 2; mkSnpLine [ch "a"] [] 0]) (seq 0 3)).
  { simpl. apply (Permutation_trans (l' := [1; 0; 2]%nat)).
    - apply perm_skip, perm_swap.
    - apply perm_swap. }
  split; [split; [exact Hp | lia]|].
  apply writeOutput_ordered; [exact Hp | lia].
Defined.

(** ** The aggregate writer *)

Example atoi_examples :
  atoi "123" = (123, true) /\ atoi "-7" = (-7, true) /\ atoi "" = (0, false)
  /\ atoi "+" = (0, false) /\ atoi "1x" = (0, false)
  /\ atoi "99999999999999999999" = (2 ^ 63 - 1, false)
  /\ atoi "0000000000000000000012" = (12, true).
Proof. vm_compute. repeat split. Qed.


(** With threshold 0.26 ([4683743612465316 * 2^-54]) the changes seen
    in 2 of the 4 results are written with proportion 0.5 ([2^52 * 2^-53])
    and printed as 0.5000. *)
Example aggregate_scenarioF :
  (aggregateWriteOutput (S754_finite false 4683743612465316 (-54)) scenarioF
    ["G6W"; "A4T"; "G6C"; "G3T"]%string
  = Some (0%nat, [("G3T"%string, S754_finite false 4503599627370496 (-53));
                  ("A4T"%string, S754_finite false 4503599627370496 (-53))])) /\
  (aggregate_text [("G3T"%string, S754_finite false 4503599627370496 (-53));
                  ("A4T"%string, S754_finite false 4503599627370496 (-53))]
  = ("change,proportion" ++ String (ascii_of_nat 10) "G3T,0.5000"
     ++ String (ascii_of_nat 10) "A4T,0.5000" ++ String (ascii_of_nat 10) EmptyString)%string).
Proof. split; vm_compute; reflexivity. Qed.

(** [FormatFloat(p, 'f', 4, 64)] of the proportions 1/3, 2/3, 1 and
    1/20001: the last is printed as 0.0000. *)
Example formatFloat_f4_examples :
  formatFloat_f4 (SFdiv f64_prec f64_emax (f64_of_count 1) (f64_of_count 3)) = "0.3333"%string /\
  formatFloat_f4 (SFdiv f64_prec f64_emax (f64_of_count 2) (f64_of_count 3)) = "0.6667"%string /\
  formatFloat_f4 (SFdiv f64_prec f64_emax (f64_of_count 5) (f64_of_count 5)) = "1.0000"%string /\
  formatFloat_f4 (SFdiv f64_prec f64_emax (f64_of_count 1) (f64_of_count 20001)) = "0.0000"%string.
Proof. repeat split; vm_compute; reflexivity. Qed.


Lemma well_formed_parse s :
  well_formed_call s -> parse_call s = Some (call_pos s, true, call_alt s).
Proof.
  unfold well_formed_call, call_pos, call_alt.
  destruct (parse_call s) as [[[p ok] a]|]; [|tauto].
  destruct ok; [reflexivity | tauto].
Qed.

Lemma agg_less_wf a b :
  well_formed_call a -> well_formed_call b -> agg_less a b = Some (lt_call a b, 0%nat).
Proof.
  intros Ha Hb. unfold agg_less. rewrite (well_formed_parse a Ha), (well_formed_parse b Hb).
  reflexivity.
Qed.

Lemma not_lt_iff x y : not_lt x y <-> call_le y x.
Proof.
  unfold not_lt, lt_call, call_le.
  destruct (Z.ltb_spec (call_pos x) (call_pos y));
  destruct (Z.eqb_spec (call_pos x) (call_pos y));
  destruct (Z.ltb_spec (call_alt x) (call_alt y)); simpl; split; intros; try lia;
  try discriminate; try reflexivity.
Qed.

Lemma lt_call_asym x y : lt_call x y = true -> not_lt y x.
Proof.
  intros H. apply not_lt_iff. unfold lt_call, call_le in *.
  destruct (Z.ltb_spec (call_pos x) (call_pos y)); [lia|].
  destruct (Z.eqb_spec (call_pos x) (call_pos y)); [|discriminate].
  destruct (Z.ltb_spec (call_alt x) (call_alt y)); [lia|discriminate].
Qed.

Lemma call_le_trans x y z : call_le x y -> call_le y z -> call_le x z.
Proof. unfold call_le. lia. Qed.

Lemma not_lt_trans x y z : not_lt x y -> not_lt y z -> not_lt x z.
Proof.
  rewrite !not_lt_iff. intros H1 H2. exact (call_le_trans z y x H2 H1).
Qed.

Lemma ins_go_perm e rl rl' n :
  ins_go e rl = Some (rl', n) -> Permutation rl' (e :: rl).
Proof.
  revert rl' n. induction rl as [|y r IH]; intros rl' n H; simpl in H.
  - injection H as <- _. reflexivity.
  - destruct (agg_less e y) as [[[|] m]|]; [|injection H as <- _; reflexivity|discriminate].
    destruct (ins_go e r) as [[r' n']|] eqn:Hr; [|discriminate].
    injection H as <- _. specialize (IH r' n' eq_refl).
    apply (Permutation_trans (l' := y :: e :: r)); [apply perm_skip, IH | apply perm_swap].
Qed.

Lemma sort_loop_perm rl rest rl' n :
  sort_loop rl rest = Some (rl', n) -> Permutation rl' (rest ++ rl).
Proof.
  revert rl rl' n. induction rest as [|e rest IH]; intros rl rl' n H; simpl in H.
  - injection H as <- _. reflexivity.
  - destruct (ins_go e rl) as [[rl1 n1]|] eqn:Hi; [|discriminate].
    destruct (sort_loop rl1 rest) as [[rl2 n2]|] eqn:Hs; [|discriminate].
    injection H as <- _. apply IH in Hs. apply ins_go_perm in Hi.
    apply (Permutation_trans Hs). simpl.
    apply (Permutation_trans (l' := rest ++ e :: rl)).
    + apply Permutation_app_head, Hi.
    + apply Permutation_sym, Permutation_middle.
Qed.

Lemma ins_go_sorted e rl :
  Forall well_formed_call (e :: rl) ->
  exists rl', ins_go e rl = Some (rl', 0%nat) /\
    (Sorted not_lt rl -> Sorted not_lt rl') /\
    (forall z, HdRel not_lt z rl -> not_lt z e -> HdRel not_lt z rl').
Proof.
  induction rl as [|y r IH]; intros Hwf.
  - exists [e]. split; [reflexivity|]. split.
    + intros _. repeat constructor.
    + intros z _ Hz. constructor. exact Hz.
  - inversion Hwf as [|? ? Hwe Hwr]; subst. inversion Hwr as [|? ? Hwy Hwr']; subst.
    simpl. rewrite (agg_less_wf e y Hwe Hwy).
    destruct (lt_call e y) eqn:Hey.
    + destruct (IH ltac:(constructor; assumption)) as (r' & Hr & Hs & Hh).
      rewrite Hr. exists (y :: r'). split; [reflexivity|]. split.
      * intros Hsy. inversion Hsy as [|? ? Hsr Hhr]; subst. constructor.
        -- apply Hs, Hsr.
        -- apply Hh; [exact Hhr|]. apply lt_call_asym, Hey.
      * intros z Hz _. inversion Hz; subst. constructor. assumption.
    + exists (e :: y :: r). split; [reflexivity|]. split.
      * intros Hsy. constructor; [exact Hsy|]. constructor. exact Hey.
      * intros z _ Hz. constructor. exact Hz.
Qed.

Lemma sort_loop_sorted rl rest :
  Forall well_formed_call (rl ++ rest) -> Sorted not_lt rl ->
  exists rl', sort_loop rl rest = Some (rl', 0%nat) /\ Sorted not_lt rl'.
Proof.
  revert rl. induction rest as [|e rest IH]; intros rl Hwf Hs.
  - exists rl. split; [reflexivity | exact Hs].
  - simpl. apply Forall_app in Hwf. destruct Hwf as [Hw1 Hw2].
    inversion Hw2 as [|? ? Hwe Hwrest]; subst.
    destruct (ins_go_sorted e rl ltac:(constructor; assumption)) as (rl1 & Hi & Hs1 & _).
    rewrite Hi.
    assert (Hwf1 : Forall well_formed_call (rl1 ++ rest)).
    { apply Forall_app. split; [|exact Hwrest].
      apply ins_go_perm in Hi. apply (Permutation_Forall (Permutation_sym Hi)).
      constructor; assumption. }
    destruct (IH rl1 Hwf1 (Hs1 Hs)) as (rl2 & Hr2 & Hs2). rewrite Hr2.
    exists rl2. split; [reflexivity | exact Hs2].
Qed.

Lemma StronglySorted_snoc {A} (S : A -> A -> Prop) l a :
  StronglySorted S l -> Forall (fun x => S x a) l -> StronglySorted S (l ++ [a]).
Proof.
  induction l as [|x l IH]; intros Hs Hf; simpl.
  - repeat constructor.
  - inversion Hs as [|? ? Hs' Hx]; subst. inversion Hf as [|? ? Hxa Hf']; subst.
    constructor; [apply IH; assumption|].
    apply Forall_app. split; [exact Hx|]. constructor; [exact Hxa | constructor].
Qed.

Lemma StronglySorted_rev_not_lt rl :
  StronglySorted not_lt rl -> StronglySorted call_le (rev rl).
Proof.
  induction rl as [|x l IH]; intros Hs; simpl; [constructor|].
  inversion Hs as [|? ? Hs' Hx]; subst. apply StronglySorted_snoc; [apply IH, Hs'|].
  apply List.Forall_forall. intros y Hy. apply in_rev in Hy.
  apply not_lt_iff. exact (proj1 (List.Forall_forall _ _) Hx y Hy).
Qed.

Lemma StronglySorted_filter {A} (S : A -> A -> Prop) (f : A -> bool) l :
  StronglySorted S l -> StronglySorted S (List.filter f l).
Proof.
  induction l as [|x l IH]; intros Hs; simpl; [constructor|].
  inversion Hs as [|? ? Hs' Hx]; subst. destruct (f x); [|apply IH, Hs'].
  constructor; [apply IH, Hs'|].
  apply List.Forall_forall. intros y Hy. apply filter_In in Hy.
  exact (proj1 (List.Forall_forall _ _) Hx y (proj1 Hy)).
Qed.

Lemma iter_pos_inv {A} (P : A -> Prop) (f : A -> A) :
  (forall x, P x -> P (f x)) -> forall p x, P x -> P (SpecFloat.iter_pos f p x).
Proof. intros Hf p. induction p as [p IH|p IH|]; intros x Hx; simpl; auto. Qed.

Lemma shr_1_nonneg mrs : 0 <= shr_m mrs -> 0 <= shr_m (shr_1 mrs).
Proof.
  destruct mrs as [m r s]; simpl. intros Hm.
  destruct m as [|[p|p|]|p]; simpl; lia.
Qed.

Lemma shr_fexp_nonneg prec emax m e l :
  0 <= m -> 0 <= shr_m (fst (shr_fexp prec emax m e l)).
Proof.
  intros Hm. unfold shr_fexp, shr.
  destruct (fexp prec emax (Zdigits2 m + e) - e) as [|p|p]; simpl;
    try (destruct l as [|[| |]]; simpl; exact Hm).
  apply iter_pos_inv; [apply shr_1_nonneg|]. destruct l as [|[| |]]; simpl; exact Hm.
Qed.

Lemma round_nearest_even_nonneg m l : 0 <= m -> 0 <= round_nearest_even m l.
Proof. intros Hm. destruct l as [|[| |]]; simpl; try destruct (Z.even m); lia. Qed.

Lemma binary_round_aux_nonneg prec emax m e l :
  0 <= m -> nonneg_float (binary_round_aux prec emax false m e l).
Proof.
  intros Hm. unfold binary_round_aux.
  pose proof (shr_fexp_nonneg prec emax m e l Hm) as H1.
  destruct (shr_fexp prec emax m e l) as [mrs' e'] eqn:E1. simpl in H1.
  pose proof (shr_fexp_nonneg prec emax (round_nearest_even (shr_m mrs') (loc_of_shr_record mrs')) e' loc_Exact
                (round_nearest_even_nonneg _ _ H1)) as H2.
  destruct (shr_fexp prec emax _ e' loc_Exact) as [mrs'' e''] eqn:E2. simpl in H2.
  destruct (shr_m mrs'') as [|p|p]; simpl; [exact I| |lia].
  destruct (e'' <=? emax - prec); exact I.
Qed.

Lemma SFdiv_pos_pos prec emax m1 e1 m2 e2 :
  nonneg_float (SFdiv prec emax (S754_finite false m1 e1) (S754_finite false m2 e2)).
Proof.
  unfold SFdiv, SFdiv_core_binary.
  match goal with |- context [Z.div_eucl ?a ?b] =>
    assert (Ha : 0 <= a); [|destruct (Z.div_eucl a b) as [q r] eqn:Ed] end.
  { destruct (_ - _ - _); [lia| apply Z.shiftl_nonneg; lia | lia]. }
  match goal with Ed : Z.div_eucl ?a ?b = _ |- _ =>
    assert (Hq : q = a / b) by (unfold Z.div; rewrite Ed; reflexivity) end.
  apply binary_round_aux_nonneg. rewrite Hq. apply Z.div_pos; lia.
Qed.

Lemma digits2_pos_size p : digits2_pos p = Pos.size p.
Proof. induction p as [p IH|p IH|]; simpl; try rewrite IH; reflexivity. Qed.

Lemma pos_size_bounds p : 2 ^ (Zpos (Pos.size p) - 1) <= Zpos p < 2 ^ Zpos (Pos.size p).
Proof.
  induction p as [p IH|p IH|]; cbn [Pos.size].
  3: { split; vm_compute; congruence. }
  1: change (Zpos p~1) with (2 * Zpos p + 1). 2: change (Zpos p~0) with (2 * Zpos p).
  all: rewrite Pos2Z.inj_succ, Z.pow_succ_r by lia.
  all: replace (Z.succ (Zpos (Pos.size p)) - 1) with (Zpos (Pos.size p)) by lia.
  all: assert (E : 2 ^ Zpos (Pos.size p) = 2 * 2 ^ (Zpos (Pos.size p) - 1))
         by (rewrite <- Z.pow_succ_r by lia; f_equal; lia).
  all: lia.
Qed.

Lemma size_iter_xO p k : Pos.size (Pos.iter xO p k) = (Pos.size p + k)%positive.
Proof.
  induction k as [|k IH] using Pos.peano_ind.
  - simpl. rewrite Pos.add_1_r. reflexivity.
  - rewrite Pos.iter_succ. simpl. rewrite IH. lia.
Qed.

(** A whole number below [2^53] converts to a positive finite float. *)
Lemma round_aux_normal mz ez :
  Pos.size mz = 53%positive -> -1074 <= ez <= 0 ->
  binary_round_aux f64_prec f64_emax false (Zpos mz) ez loc_Exact = S754_finite false mz ez.
Proof.
  intros Hs He. unfold binary_round_aux, shr_fexp.
  cbn [Zdigits2 shr_record_of_loc]. rewrite digits2_pos_size, Hs.
  assert (E : fexp f64_prec f64_emax (Zpos 53 + ez) - ez = 0)
    by (unfold fexp, emin, f64_prec, f64_emax; lia).
  rewrite E. cbn [shr loc_of_shr_record round_nearest_even shr_m Zdigits2 shr_record_of_loc].
  rewrite digits2_pos_size, Hs, E. cbn [shr shr_m].
  replace (ez <=? f64_emax - f64_prec) with true by (symmetry; apply Z.leb_le; unfold f64_emax, f64_prec; lia).
  reflexivity.
Qed.

Lemma f64_of_pos_finite p :
  Zpos p < 2 ^ 53 ->
  exists m e, binary_normalize f64_prec f64_emax (Zpos p) 0 false = S754_finite false m e.
Proof.
  intros Hp. simpl. unfold binary_round.
  rewrite digits2_pos_size. pose proof (pos_size_bounds p) as [Hl Hu].
  assert (Hd : Zpos (Pos.size p) <= 53).
  { destruct (Z.le_gt_cases (Zpos (Pos.size p)) 53) as [H|H]; [exact H|].
    assert (2 ^ 53 <= 2 ^ (Zpos (Pos.size p) - 1)) by (apply Z.pow_le_mono_r; lia). lia. }
  unfold fexp, emin, f64_prec, f64_emax. rewrite Z.add_0_r.
  rewrite Z.max_l by lia. unfold shl_align.
  destruct (Zpos (Pos.size p) - 53 - 0) as [|k|k] eqn:Ek; [| lia |].
  - exists p, 0. apply round_aux_normal; [lia | lia].
  - exists (Pos.iter xO p k), (Zpos (Pos.size p) - 53). apply round_aux_normal; [|lia].
    rewrite size_iter_xO. lia.
Qed.

Lemma SFcompare_swap x y : SFcompare y x = option_map CompOpp (SFcompare x y).
Proof.
  destruct x as [sx|sx| |sx mx ex], y as [sy|sy| |sy my ey];
    try destruct sx; try destruct sy; simpl; try reflexivity.
  all: rewrite (Z.compare_antisym ex ey); destruct (ex ?= ey); simpl; try reflexivity.
  all: pose proof (Pos.compare_cont_antisym mx my Eq) as H; simpl in H; rewrite <- H.
  all: try reflexivity; symmetry; apply CompOpp_involutive.
Qed.

Lemma SFltb_false_iff p t :
  p <> S754_nan -> t <> S754_nan -> SFltb p t = false <-> SFleb t p = true.
Proof.
  intros Hp Ht. unfold SFltb, SFleb. rewrite (SFcompare_swap p t).
  destruct (SFcompare p t) as [[| |]|] eqn:E; simpl; split; try congruence.
  destruct p, t; simpl in E; congruence.
Qed.

Lemma nonneg_not_nan p : nonneg_float p -> p <> S754_nan.
Proof. destruct p; simpl; congruence. Qed.

Lemma nonneg_not_lt_zero p : nonneg_float p -> SFltb p (S754_zero false) = false.
Proof. destruct p as [s|s| |s m e]; try destruct s; simpl; tauto. Qed.

Lemma f64_of_nat_finite n :
  (0 < n)%nat -> Z.of_nat n < 2 ^ 53 ->
  exists m e, f64_of_count (Z.of_nat n # 1) = S754_finite false m e.
Proof.
  intros Hn Hb. destruct n as [|n]; [lia|]. unfold f64_of_count. cbn [Qnum].
  change (Z.of_nat (S n)) with (Zpos (Pos.of_succ_nat n)) in *.
  apply f64_of_pos_finite, Hb.
Qed.

Lemma proportion_nonneg c n :
  (0 < c)%nat -> (0 < n)%nat -> Z.of_nat c < 2 ^ 53 -> Z.of_nat n < 2 ^ 53 ->
  nonneg_float (SFdiv f64_prec f64_emax (f64_of_count (Z.of_nat c # 1)) (f64_of_count (Z.of_nat n # 1))).
Proof.
  intros Hc Hn Hcb Hnb.
  destruct (f64_of_nat_finite c Hc Hcb) as (m1 & e1 & ->).
  destruct (f64_of_nat_finite n Hn Hnb) as (m2 & e2 & ->).
  apply SFdiv_pos_pos.
Qed.

Lemma emit_fst threshold counter pm order :
  map fst (emit threshold counter pm order) =
  List.filter (fun snp => negb (SFltb (proportion counter pm snp) threshold)) order.
Proof.
  induction order as [|snp order IH]; simpl; [reflexivity|].
  destruct (SFltb _ threshold); simpl; rewrite IH; reflexivity.
Qed.

Lemma map_fst_fmap {A B} (l : list (A * B)) : map fst l = l.*1.
Proof. induction l as [|x l IH]; simpl; [reflexivity | rewrite IH; reflexivity]. Qed.

Lemma propMap_keys_nodup results : List.NoDup (propMap_keys results).
Proof.
  unfold propMap_keys. rewrite map_fst_fmap. apply NoDup_ListNoDup.
  apply NoDup_fst_map_to_list.
Qed.

(** C6: when every change parses ([s[1:len(s)-1]] is a number), the
    distinct changes of [propMap], enumerated in any order, are written
    sorted by position ascending and, at equal positions, by allele byte
    ascending (and no error is sent). *)
Theorem aggregate_sorted (threshold : spec_float) (results : list snpLine) (enum : list string) :
  Permutation enum (propMap_keys results) ->
  Forall well_formed_call enum ->
  exists lines,
    aggregateWriteOutput threshold results enum = Some (0%nat, lines) /\
    StronglySorted call_le (map fst lines) /\ List.NoDup (map fst lines).
Proof.
  intros Hperm Hwf. unfold aggregateWriteOutput.
  destruct (tally results) as [counter pm].
  unfold sliceStable.
  destruct (sort_loop_sorted [] enum Hwf (Sorted_nil _)) as (rl & Hs & Hsorted).
  pose proof (sort_loop_perm [] enum rl 0 Hs) as Hp. rewrite app_nil_r in Hp.
  rewrite Hs. eexists. split; [reflexivity|]. rewrite emit_fst. split.
  - apply StronglySorted_filter, StronglySorted_rev_not_lt.
    apply Sorted_StronglySorted; [|exact Hsorted].
    intros x y z. apply not_lt_trans.
  - apply List.NoDup_filter, List.NoDup_rev.
    apply (Permutation_NoDup (Permutation_sym Hp)).
    apply (Permutation_NoDup (Permutation_sym Hperm)), propMap_keys_nodup.
Qed.

Lemma aggregate_sorted_witness :
  (Permutation ["G6W"; "A4T"; "G6C"; "G3T"]%string (propMap_keys scenarioF) /\
   Forall well_formed_call ["G6W"; "A4T"; "G6C"; "G3T"]%string) /\
  exists lines,
    aggregateWriteOutput (S754_zero false) scenarioF ["G6W"; "A4T"; "G6C"; "G3T"]%string = Some (0%nat, lines) /\
    StronglySorted call_le (map fst lines) /\ List.NoDup (map fst lines).
Proof.
  assert (Hp : Permutation ["G6W"; "A4T"; "G6C"; "G3T"]%string (propMap_keys scenarioF)).
  { apply Permutation.NoDup_Permutation.
    - repeat constructor; simpl; intuition discriminate.
    - apply propMap_keys_nodup.
    - intros x. vm_compute. intuition. }
  assert (Hw : Forall well_formed_call ["G6W"; "A4T"; "G6C"; "G3T"]%string)
    by (repeat constructor).
  split; [split; assumption|].
  apply aggregate_sorted; assumption.
Defined.

Lemma Qplus_one_nat k : ((Z.of_nat k # 1) + 1)%Q = (Z.of_nat (S k) # 1).
Proof. unfold Qplus. simpl. f_equal. lia. Qed.

Lemma count_snps_go_lookup (l : list string) (pm : gmap string Q) s c :
  pm !! s = qcount c ->
  fold_left (fun pm snp =>
               match pm !! snp with
               | Some c => <[snp := (c + 1)%Q]> pm
               | None => <[snp := 1%Q]> pm
               end) l pm !! s = qcount (c + count_occ string_dec l s).
Proof.
  revert pm c. induction l as [|snp l IH]; intros pm c Hpm; simpl.
  - rewrite Nat.add_0_r. exact Hpm.
  - destruct (string_dec snp s) as [<- | Hne].
    + rewrite <- Nat.add_succ_comm. apply IH.
      destruct (pm !! snp) as [v|] eqn:Hv; rewrite lookup_insert_eq.
      * destruct c as [|c']; [discriminate|]. unfold qcount in Hpm |- *.
        injection Hpm as Hvv. subst v. f_equal. apply Qplus_one_nat.
      * destruct c as [|c']; [reflexivity | discriminate].
    + apply IH.
      destruct (pm !! snp); rewrite lookup_insert_ne by exact Hne; exact Hpm.
Qed.

Lemma tally_go results k (pm : gmap string Q) (cnt : string -> nat) :
  (forall s, pm !! s = qcount (cnt s)) ->
  let r := fold_left (fun acc sl => ((fst acc + 1)%Q, count_snps (snd acc) sl))
                     results (Z.of_nat k # 1, pm) in
  fst r = (Z.of_nat (k + length results) # 1) /\
  (forall s, snd r !! s = qcount (cnt s + count_occ string_dec (flat_map snps results) s)).
Proof.
  revert k pm cnt. induction results as [|sl results IH]; intros k pm cnt Hpm; simpl.
  - rewrite Nat.add_0_r. split; [reflexivity|]. intros s. rewrite Nat.add_0_r. apply Hpm.
  - rewrite Qplus_one_nat.
    destruct (IH (S k) (count_snps pm sl)
                (fun s => (cnt s + count_occ string_dec (snps sl) s)%nat)) as [H1 H2].
    + intros s. unfold count_snps. apply count_snps_go_lookup, Hpm.
    + split.
      * rewrite H1. f_equal. f_equal. lia.
      * intros s. rewrite H2, count_occ_app. f_equal. lia.
Qed.

Lemma tally_spec results :
  fst (tally results) = (Z.of_nat (length results) # 1) /\
  (forall s, snd (tally results) !! s = qcount (count_calls results s)).
Proof.
  destruct (tally_go results 0 ∅ (fun _ => 0%nat)) as [H1 H2].
  - intros s. rewrite lookup_empty. reflexivity.
  - unfold tally. split; [exact H1|]. intros s. rewrite H2. reflexivity.
Qed.

Lemma in_propMap_keys results s :
  In s (propMap_keys results) <-> (0 < count_calls results s)%nat.
Proof.
  unfold propMap_keys. rewrite in_map_iff.
  destruct (tally_spec results) as [_ H2]. split.
  - intros ([k v] & <- & Hin). apply list_elem_of_In, elem_of_map_to_list in Hin.
    simpl. rewrite H2 in Hin. destruct (count_calls results k); [discriminate | lia].
  - intros Hc. destruct (count_calls results s) as [|n] eqn:E; [lia|].
    exists (s, (Z.of_nat (S n) # 1)). split; [reflexivity|].
    apply list_elem_of_In, elem_of_map_to_list. rewrite H2, E. reflexivity.
Qed.

Lemma in_emit threshold counter (pm : gmap string Q) order s p :
  In (s, p) (emit threshold counter pm order) <->
  In s order /\ p = proportion counter pm s /\ SFltb p threshold = false.
Proof.
  unfold emit. rewrite in_flat_map. split.
  - intros (x & Hx & Hin). destruct (SFltb _ threshold) eqn:E; [destruct Hin|].
    destruct Hin as [Heq | []]. injection Heq as <- <-. auto.
  - intros (Hs & -> & Hlt). exists s. split; [exact Hs|]. rewrite Hlt. left. reflexivity.
Qed.

Lemma count_calls_pos_length results s :
  (0 < count_calls results s)%nat -> (0 < length results)%nat.
Proof. destruct results; simpl; [unfold count_calls; simpl; lia | lia]. Qed.

Lemma count_calls_bound results s :
  (count_calls results s <= length (flat_map snps results))%nat.
Proof.
  unfold count_calls. induction (flat_map snps results) as [|x l IH]; simpl; [lia|].
  destruct (string_dec x s); lia.
Qed.

(** C7: in aggregate mode a distinct change is written iff its proportion
    (the float64 quotient of its occurrences by the number of query
    results, those without calls included) is at least the threshold; the
    filter sends no error (the errors sent do not depend on the
    threshold), and with the default threshold 0 every distinct change is
    written.  The counts are below [2^53], where float64 holds them
    exactly, and the threshold is a number (not NaN). *)
Theorem aggregate_threshold (threshold : spec_float) (results : list snpLine)
        (enum : list string) (nerr : nat) (lines : list (string * spec_float)) :
  Permutation enum (propMap_keys results) ->
  Z.of_nat (length results) < 2 ^ 53 ->
  Z.of_nat (length (flat_map snps results)) < 2 ^ 53 ->
  threshold <> S754_nan ->
  aggregateWriteOutput threshold results enum = Some (nerr, lines) ->
  (forall s p, In (s, p) lines <->
     (0 < count_calls results s)%nat /\
     p = SFdiv f64_prec f64_emax (f64_of_count (Z.of_nat (count_calls results s) # 1))
                                 (f64_of_count (Z.of_nat (length results) # 1)) /\
     SFleb threshold p = true) /\
  (forall t', exists lines', aggregateWriteOutput t' results enum = Some (nerr, lines')) /\
  (threshold = S754_zero false ->
   forall s, (0 < count_calls results s)%nat -> exists p, In (s, p) lines).
Proof.
  intros Hperm Hlen Hcalls Hnan Hagg. unfold aggregateWriteOutput in *.
  destruct (tally_spec results) as [Hc Hpm].
  destruct (tally results) as [counter pm]. simpl in Hc, Hpm.
  destruct (sliceStable enum) as [[order n]|] eqn:Hsort; [|discriminate].
  injection Hagg as <- <-.
  assert (Hord : forall s, In s order <-> (0 < count_calls results s)%nat).
  { intros s. unfold sliceStable in Hsort.
    destruct (sort_loop [] enum) as [[rl m]|] eqn:Hl; [|discriminate].
    injection Hsort as <- _. apply sort_loop_perm in Hl. rewrite app_nil_r in Hl.
    rewrite <- in_rev, <- in_propMap_keys. split; intros H.
    - apply (Permutation_in _ Hperm), (Permutation_in _ Hl), H.
    - apply (Permutation_in _ (Permutation_sym Hl)), (Permutation_in _ (Permutation_sym Hperm)), H. }
  assert (Hval : forall s, (0 < count_calls results s)%nat ->
            proportion counter pm s =
            SFdiv f64_prec f64_emax (f64_of_count (Z.of_nat (count_calls results s) # 1))
                                    (f64_of_count (Z.of_nat (length results) # 1))).
  { intros s Hs. unfold proportion. rewrite Hpm, Hc.
    destruct (count_calls results s); [lia | reflexivity]. }
  assert (Hnn : forall s, (0 < count_calls results s)%nat ->
            nonneg_float (proportion counter pm s)).
  { intros s Hs. rewrite (Hval s Hs). apply proportion_nonneg.
    - exact Hs.
    - apply (count_calls_pos_length _ _ Hs).
    - pose proof (count_calls_bound results s). lia.
    - exact Hlen. }
  split; [|split].
  - intros s p. rewrite in_emit, Hord. split.
    + intros (Hs & -> & Hlt). split; [exact Hs|]. split; [apply Hval, Hs|].
      apply SFltb_false_iff; [apply nonneg_not_nan, Hnn, Hs | exact Hnan | exact Hlt].
    + intros (Hs & -> & Hle). rewrite <- (Hval s Hs) in Hle |- *. split; [exact Hs|].
      split; [reflexivity|].
      apply SFltb_false_iff; [apply nonneg_not_nan, Hnn, Hs | exact Hnan | exact Hle].
  - intros t'. eexists. reflexivity.
  - intros -> s Hs. eexists. apply in_emit. split; [apply Hord, Hs|].
    split; [reflexivity|]. apply nonneg_not_lt_zero, Hnn, Hs.
Qed.

Lemma aggregate_threshold_witness :
  (Permutation ["A1T"]%string (propMap_keys tenth_results) /\
   Z.of_nat (length tenth_results) < 2 ^ 53 /\
   Z.of_nat (length (flat_map snps tenth_results)) < 2 ^ 53 /\
   f64_point1 <> S754_nan /\
   aggregateWriteOutput f64_point1 tenth_results ["A1T"]%string
     = Some (0%nat, [("A1T"%string, f64_point1)])) /\
  ((forall s p, In (s, p) [("A1T"%string, f64_point1)] <->
     (0 < count_calls tenth_results s)%nat /\
     p = SFdiv f64_prec f64_emax (f64_of_count (Z.of_nat (count_calls tenth_results s) # 1))
                                 (f64_of_count (Z.of_nat (length tenth_results) # 1)) /\
     SFleb f64_point1 p = true) /\
   (forall t', exists lines', aggregateWriteOutput t' tenth_results ["A1T"]%string
                 = Some (0%nat, lines')) /\
   (f64_point1 = S754_zero false ->
    forall s, (0 < count_calls tenth_results s)%nat ->
      exists p, In (s, p) [("A1T"%string, f64_point1)])).
Proof.
  assert (Hp : Permutation ["A1T"]%string (propMap_keys tenth_results))
    by (vm_compute; apply Permutation_refl).
  assert (H1 : Z.of_nat (length tenth_results) < 2 ^ 53) by (vm_compute; reflexivity).
  assert (H2 : Z.of_nat (length (flat_map snps tenth_results)) < 2 ^ 53)
    by (vm_compute; reflexivity).
  assert (H3 : f64_point1 <> S754_nan) by discriminate.
  assert (Ha : aggregateWriteOutput f64_point1 tenth_results ["A1T"]%string
     = Some (0%nat, [("A1T"%string, f64_point1)])) by (vm_compute; reflexivity).
  split; [repeat split; assumption|].
  apply aggregate_threshold; assumption.
Defined.

(** ** Witnesses of the codec theorems at concrete symbols *)

Lemma soft_gap_like_N_witness :
  0 <= ch "C" < 256 /\
  is_snp (encoding false (ch "-")) (ch "C") = is_snp (encoding false (ch "N")) (ch "C").
Proof.
  assert (Hy : 0 <= ch "C" < 256) by (change (0 <= 67 < 256); lia).
  split; [exact Hy|].
  destruct soft_gap_like_N as (_ & _ & _ & _ & _ & _ & H). exact (proj1 (H _ Hy)).
Defined.

Lemma hard_gap_question_mark_never_called_witness :
  (In "R"%char nucs /\ iupac_bases true "R" <> []) /\
  is_snp (encoding true (ch "?")) (encoding true (ch "R")) = false.
Proof.
  assert (Hin : In "R"%char nucs) by (simpl; tauto).
  assert (Hne : iupac_bases true "R" <> []) by (simpl; discriminate).
  split; [split; assumption|].
  exact (proj1 (proj2 (proj2 hard_gap_question_mark_never_called) "R"%char Hin Hne)).
Defined.

(* ================================================================== *)
(** * Further properties of the code *)

(** ** The tables *)

Lemma build_go_notin {A} (ws : list (Z * A)) (t : Z -> A) i :
  ~ In i (map fst ws) ->
  fold_left (fun t kv => upd t (fst kv) (snd kv)) ws t i = t i.
Proof.
  revert t. induction ws as [|kv ws IH]; intros t Hn; [reflexivity|].
  simpl in Hn |- *. rewrite IH by tauto. unfold upd.
  destruct (Z.eqb_spec i (fst kv)); [exfalso; apply Hn; left; congruence | reflexivity].
Qed.

Lemma build_go_cases {A} (ws : list (Z * A)) (t : Z -> A) i :
  fold_left (fun t kv => upd t (fst kv) (snd kv)) ws t i = t i \/
  In (i, fold_left (fun t kv => upd t (fst kv) (snd kv)) ws t i) ws.
Proof.
  revert t. induction ws as [|kv ws IH]; intros t; [left; reflexivity|].
  simpl. destruct (IH (upd t (fst kv) (snd kv))) as [H | H]; [|right; right; exact H].
  rewrite H. unfold upd. destruct (Z.eqb_spec i (fst kv)) as [-> | Hne].
  - right. left. destruct kv; reflexivity.
  - left. reflexivity.
Qed.

Lemma build_go_agree {A} (P : Z -> Prop) (ws1 ws2 : list (Z * A)) (t1 t2 : Z -> A) :
  Forall2 (fun a b => a = b \/ (P (fst a) /\ P (fst b))) ws1 ws2 ->
  (forall i, ~ P i -> t1 i = t2 i) ->
  forall i, ~ P i ->
  fold_left (fun t kv => upd t (fst kv) (snd kv)) ws1 t1 i =
  fold_left (fun t kv => upd t (fst kv) (snd kv)) ws2 t2 i.
Proof.
  intros H. revert t1 t2. induction H as [|a b ws1 ws2 Hab _ IH]; intros t1 t2 Ht;
    [exact Ht|].
  simpl. apply IH. intros i Hi. unfold upd.
  destruct Hab as [<- | [Pa Pb]].
  - destruct (Z.eqb i (fst a)); [reflexivity | apply Ht, Hi].
  - destruct (Z.eqb_spec i (fst a)) as [-> | _]; [contradiction|].
    destruct (Z.eqb_spec i (fst b)) as [-> | _]; [contradiction|]. apply Ht, Hi.
Qed.

(** Every byte other than the 32 defined symbols (the IUPAC letters in
    both cases, ['-'] and ['?']) encodes to 0 under both gap policies: it
    has no base bit, so the SNP test is true against every code, either
    way round, and it decodes to the empty string. *)
Theorem undefined_byte_encodes_zero (hg : bool) (b : Z) :
  ~ In b (map ch nucs) ->
  encoding hg b = 0 /\ decoding hg (encoding hg b) = ""%string /\
  (forall y, is_snp (encoding hg b) y = true /\ is_snp y (encoding hg b) = true).
Proof.
  intros Hb.
  assert (H0 : encoding hg b = 0).
  { destruct hg; unfold encoding, makeEncodingArrayHardGaps, makeEncodingArray, build;
      rewrite build_go_notin; try reflexivity;
      intros Hin; apply Hb; unfold nucs; cbn [map fst In] in Hin |- *; tauto. }
  rewrite H0. split; [reflexivity|]. split; [destruct hg; vm_compute; reflexivity|].
  intros y. unfold is_snp. rewrite Z.land_0_l, Z.land_0_r. split; reflexivity.
Qed.

Lemma undefined_byte_encodes_zero_witness :
  ~ In (ch "X") (map ch nucs) /\
  encoding true (ch "X") = 0 /\ decoding true (encoding true (ch "X")) = ""%string /\
  (forall y, is_snp (encoding true (ch "X")) y = true /\
             is_snp y (encoding true (ch "X")) = true).
Proof.
  assert (H : ~ In (ch "X") (map ch nucs)) by (vm_compute; intuition discriminate).
  split; [exact H | apply undefined_byte_encodes_zero, H].
Defined.

(** The encoding tables ignore case: every byte encodes like its
    upper-case form ([strings.ToUpper] on ASCII), under both gap
    policies; lower-case letters that are not IUPAC codes encode to 0
    like their upper-case forms. *)
Theorem encoding_case_insensitive (hg : bool) (b : Z) :
  encoding hg (upper_byte b) = encoding hg b.
Proof.
  unfold upper_byte. destruct ((97 <=? b) && (b <=? 122)) eqn:E; [|reflexivity].
  apply andb_true_iff in E. destruct E as [E1 E2].
  apply Z.leb_le in E1. apply Z.leb_le in E2.
  assert (Hall : forall y, 0 <= y < 256 ->
            negb ((97 <=? y) && (y <=? 122)) || (encoding hg (y - 32) =? encoding hg y) = true).
  { apply forall_bytes. destruct hg; vm_compute; reflexivity. }
  specialize (Hall b ltac:(lia)).
  apply Z.leb_le in E1. apply Z.leb_le in E2. rewrite E1, E2 in Hall. simpl in Hall.
  apply Z.eqb_eq, Hall.
Qed.

(** The two gap policies differ only at the gap: the encoding tables
    agree on every byte but ['-'], and the decoding tables agree on every
    code but the two gap codes 4 (hard) and 244 (soft). *)
Theorem gap_policies_differ_only_at_gap (b c : Z) :
  (b <> ch "-" -> makeEncodingArrayHardGaps b = makeEncodingArray b) /\
  (c <> 4 -> c <> 244 -> makeDecodingArrayHardGaps c = makeDecodingArray c).
Proof.
  split.
  - intros Hb. unfold makeEncodingArrayHardGaps, makeEncodingArray, build.
    apply (build_go_agree (fun i => i = ch "-")); [|reflexivity|exact Hb].
    repeat (apply List.Forall2_cons;
            [first [left; reflexivity
                   | right; simpl; split;
                     first [reflexivity | left; reflexivity | right; reflexivity]]|]).
    apply List.Forall2_nil.
  - intros H4 H244. unfold makeDecodingArrayHardGaps, makeDecodingArray, build.
    apply (build_go_agree (fun i => i = 4 \/ i = 244)); [| reflexivity | tauto].
    repeat (apply List.Forall2_cons;
            [first [left; reflexivity
                   | right; simpl; split;
                     first [reflexivity | left; reflexivity | right; reflexivity]]|]).
    apply List.Forall2_nil.
Qed.

Lemma gap_policies_differ_only_at_gap_witness :
  (ch "N" <> ch "-" /\ 240 <> 4 /\ 240 <> 244) /\
  makeEncodingArrayHardGaps (ch "N") = makeEncodingArray (ch "N") /\
  makeDecodingArrayHardGaps 240 = makeDecodingArray 240.
Proof.
  assert (Hn : ch "N" <> ch "-") by (vm_compute; discriminate).
  split; [split; [exact Hn | split; discriminate]|].
  split; [apply (proj1 (gap_policies_differ_only_at_gap (ch "N") 240)), Hn|].
  apply (proj2 (gap_policies_differ_only_at_gap (ch "N") 240)); discriminate.
Defined.

(** Under hard gaps a ['-'] is reported against every code, either way
    round, including against another ['-'], and decodes back to ["-"]. *)
Theorem hard_gap_always_called (y : Z) :
  0 <= y < 256 ->
  is_snp (encoding true (ch "-")) y = true /\ is_snp y (encoding true (ch "-")) = true /\
  decoding true (encoding true (ch "-")) = "-"%string.
Proof.
  intros Hy.
  assert (H : forall y, 0 <= y < 256 ->
            is_snp (encoding true (ch "-")) y && is_snp y (encoding true (ch "-")) = true).
  { apply forall_bytes. vm_compute. reflexivity. }
  destruct (proj1 (andb_true_iff _ _) (H y Hy)) as [H1 H2].
  split; [exact H1|]. split; [exact H2|]. vm_compute. reflexivity.
Qed.

Lemma hard_gap_always_called_witness :
  0 <= encoding true (ch "-") < 256 /\
  is_snp (encoding true (ch "-")) (encoding true (ch "-")) = true.
Proof.
  assert (Hy : 0 <= encoding true (ch "-") < 256) by (change (0 <= 4 < 256); lia).
  split; [exact Hy|].
  exact (proj1 (hard_gap_always_called _ Hy)).
Defined.

(** Decoding then encoding is the identity on the codes the decoding
    tables define: if code [c] decodes to the one-character string [a],
    then [a] encodes to [c] (both gap policies); every other code decodes
    to the empty string. *)
Theorem encode_decode_defined (hg : bool) (c : Z) :
  decoding hg c = ""%string \/
  exists a, decoding hg c = String a EmptyString /\ encoding hg (ch a) = c.
Proof.
  destruct hg; unfold decoding, makeDecodingArrayHardGaps, makeDecodingArray, build;
    match goal with
    | |- fold_left _ ?ws ?t c = _ \/ _ =>
        destruct (build_go_cases ws t c) as [H | H]; [left; exact H|];
        remember (fold_left _ ws t c) as v eqn:Hv; clear Hv
    end;
    right; simpl in H;
    repeat (destruct H as [H | H];
            [injection H as <- <-; eexists; split; [reflexivity | vm_compute; reflexivity]|]);
    destruct H.
Qed.

(** ** The diff engine *)

Lemma snps_loop_none DA refSeq k sq :
  snps_loop DA refSeq k sq = None <->
  sq <> [] /\ (length refSeq < k + length sq)%nat.
Proof.
  revert k. induction sq as [|nuc rest IH]; intros k; simpl.
  - split; [discriminate | tauto].
  - destruct (nth_error refSeq k) as [r|] eqn:Hr.
    + assert (Hk : (k < length refSeq)%nat)
        by (apply nth_error_Some; rewrite Hr; discriminate).
      destruct (snps_loop DA refSeq (S k) rest) as [calls|] eqn:Hl.
      * split; [destruct (is_snp r nuc); discriminate|].
        intros [_ Hlt]. destruct rest as [|x rest'].
        -- simpl in Hlt. lia.
        -- assert (Hn : snps_loop DA refSeq (S k) (x :: rest') = None)
             by (apply IH; split; [discriminate | simpl in *; lia]).
           congruence.
      * split; [|reflexivity]. intros _. apply IH in Hl.
        split; [discriminate | lia].
    + apply nth_error_None in Hr. split; [intros _; split; [discriminate | lia] | reflexivity].
Qed.

(** The worker loop panics exactly when some query record is longer
    than the reference ([refSeq[i]] out of range); otherwise it gives
    one result per record, carrying the record's ID and ordinal. *)
Theorem getSNPs_panics_iff_longer (hg : bool) (refSeq : list Z)
        (records : list encodedFastaRecord) :
  (getSNPs hg refSeq records = None <->
   Exists (fun FR => (length refSeq < length (Seq FR))%nat) records) /\
  (forall sls, getSNPs hg refSeq records = Some sls ->
   map queryname sls = map ID records /\ map sidx sls = map idx records).
Proof.
  split.
  - induction records as [|FR rest IH]; simpl.
    + split; [discriminate | intros H; inversion H].
    + rewrite Exists_cons, <- IH.
      assert (HFR : getSNPs_record hg refSeq FR = None <->
                    (length refSeq < length (Seq FR))%nat).
      { unfold getSNPs_record.
        destruct (snps_loop (decoding hg) refSeq 0 (Seq FR)) eqn:E.
        - split; [discriminate|]. intros Hlt.
          assert (snps_loop (decoding hg) refSeq 0 (Seq FR) = None); [|congruence].
          apply snps_loop_none. split; [|lia]. intros Hn. rewrite Hn in Hlt. simpl in Hlt. lia.
        - apply snps_loop_none in E. split; [intros _; lia | reflexivity]. }
      rewrite <- HFR.
      destruct (getSNPs_record hg refSeq FR), (getSNPs hg refSeq rest);
        split; intros H; try discriminate; try tauto; destruct H; discriminate.
  - induction records as [|FR rest IH]; intros sls H; simpl in H.
    + injection H as <-. split; reflexivity.
    + destruct (getSNPs_record hg refSeq FR) as [SL|] eqn:E1; [|discriminate].
      destruct (getSNPs hg refSeq rest) as [SLs|]; [|discriminate].
      injection H as <-. destruct (IH SLs eq_refl) as [H1 H2].
      unfold getSNPs_record in E1.
      destruct (snps_loop (decoding hg) refSeq 0 (Seq FR)); [|discriminate].
      injection E1 as <-. simpl. rewrite H1, H2. split; reflexivity.
Qed.

Lemma getSNPs_panics_iff_longer_witness :
  getSNPs false [136] [mkRecord [] [] [136; 40] 0] = None /\
  Exists (fun FR => (length [136] < length (Seq FR))%nat) [mkRecord [] [] [136; 40] 0].
Proof.
  assert (H : Exists (fun FR => (length [136] < length (Seq FR))%nat)
                     [mkRecord [] [] [136; 40] 0]) by (constructor; simpl; lia).
  split; [|exact H].
  apply (proj2 (proj1 (getSNPs_panics_iff_longer false [136] [mkRecord [] [] [136; 40] 0])) H).
Defined.

Lemma sorted_lt_unique (l1 l2 : list nat) :
  StronglySorted lt l1 -> StronglySorted lt l2 -> (forall x, In x l1 <-> In x l2) -> l1 = l2.
Proof.
  revert l2. induction l1 as [|x t1 IH]; intros [|y t2] H1 H2 Hm.
  - reflexivity.
  - exfalso. apply (proj2 (Hm y)). left. reflexivity.
  - exfalso. apply (proj1 (Hm x)). left. reflexivity.
  - inversion H1 as [|? ? H1' Hx]; subst. inversion H2 as [|? ? H2' Hy]; subst.
    assert (Hxy : x = y).
    { destruct (proj1 (Hm x) (or_introl eq_refl)) as [-> | Hx2]; [reflexivity|].
      destruct (proj2 (Hm y) (or_introl eq_refl)) as [-> | Hy1]; [reflexivity|].
      apply (proj1 (List.Forall_forall _ _) Hy) in Hx2.
      apply (proj1 (List.Forall_forall _ _) Hx) in Hy1. lia. }
    subst y. f_equal. apply IH; [exact H1' | exact H2'|].
    intros z. split; intros Hz.
    + destruct (proj1 (Hm z) (or_intror Hz)) as [<- | Hz2]; [|exact Hz2].
      apply (proj1 (List.Forall_forall _ _) Hx) in Hz. lia.
    + destruct (proj2 (Hm z) (or_intror Hz)) as [<- | Hz1]; [|exact Hz1].
      apply (proj1 (List.Forall_forall _ _) Hy) in Hz. lia.
Qed.

Lemma seq_strongly_sorted a n : StronglySorted lt (seq a n).
Proof.
  revert a. induction n as [|n IH]; intros a; simpl; constructor; [apply IH|].
  apply List.Forall_forall. intros x Hx. apply in_seq in Hx. lia.
Qed.

(** A query identical to the reference gets a call exactly where the
    reference has a code without base bit (a byte outside the defined
    symbols, or a hard gap), in increasing order: the call at [i] is
    the reference symbol, [i + 1] and the same symbol again.  So it has
    no call at all iff every code of the reference is at least 16. *)
Theorem getSNPs_identical_query (hg : bool) (refSeq : list Z) (FR : encodedFastaRecord) :
  Seq FR = refSeq -> Forall (fun c => 0 <= c) refSeq ->
  exists SL, getSNPs_record hg refSeq FR = Some SL /\
    snps SL = map (snp_call hg refSeq refSeq)
                  (List.filter (fun i => nth i refSeq 0 <? 16) (seq 0 (length refSeq))) /\
    (snps SL = [] <-> Forall (fun c => 16 <= c) refSeq).
Proof.
  intros Hq Hnn.
  destruct (snps_loop_spec (decoding hg) refSeq 0 (Seq FR)) as (idxs & Hl & Hs & Hm);
    [rewrite Hq; lia|].
  unfold getSNPs_record. rewrite Hl. eexists. split; [reflexivity|]. simpl.
  rewrite Hq in Hm |- *.
  assert (Hid : idxs = List.filter (fun i => nth i refSeq 0 <? 16) (seq 0 (length refSeq))).
  { apply sorted_lt_unique; [exact Hs | apply StronglySorted_filter, seq_strongly_sorted |].
    intros x. rewrite Hm, List.filter_In, in_seq, Nat.sub_0_r. unfold is_snp.
    rewrite Z.land_diag. reflexivity. }
  split.
  - rewrite Hid. apply map_ext. intros i. unfold snp_call. rewrite Nat.sub_0_r. reflexivity.
  - split.
    + intros Hnil. apply List.Forall_nth. intros i d Hi.
      rewrite (nth_indep refSeq d 0 Hi).
      destruct (Z.le_gt_cases 16 (nth i refSeq 0)) as [H|H]; [exact H|].
      assert (Hin : In i idxs).
      { apply Hm. split; [lia|]. rewrite Nat.sub_0_r. unfold is_snp.
        rewrite Z.land_diag. apply Z.ltb_lt, H. }
      destruct idxs; [destruct Hin | discriminate].
    + intros Hall. destruct idxs as [|i idxs]; [reflexivity|]. exfalso.
      destruct (proj1 (Hm i) (or_introl eq_refl)) as [Hi Hs'].
      rewrite Nat.sub_0_r in Hs'. unfold is_snp in Hs'. rewrite Z.land_diag in Hs'.
      apply Z.ltb_lt in Hs'.
      assert (Hi' : (i < length refSeq)%nat) by lia.
      apply (proj1 (List.Forall_nth _ _) Hall i 0%Z) in Hi'. lia.
Qed.

Lemma getSNPs_identical_query_witness :
  (Seq (mkRecord [] [] [136; 4; 24] 0) = [136; 4; 24] /\ Forall (fun c => 0 <= c) [136; 4; 24]) /\
  exists SL, getSNPs_record true [136; 4; 24] (mkRecord [] [] [136; 4; 24] 0) = Some SL /\
    snps SL = map (snp_call true [136; 4; 24] [136; 4; 24])
                  (List.filter (fun i => nth i [136; 4; 24] 0 <? 16) (seq 0 (length [136; 4; 24]))) /\
    (snps SL = [] <-> Forall (fun c => 16 <= c) [136; 4; 24]).
Proof.
  assert (H : Forall (fun c => 0 <= c) [136; 4; 24]) by (repeat constructor; lia).
  split; [split; [reflexivity | exact H]|].
  apply getSNPs_identical_query; [reflexivity | exact H].
Defined.

(** Swapping the reference and a query of the same length gives calls at
    the same positions, each with its two alleles exchanged. *)
Theorem getSNPs_swap (hg : bool) (FR1 FR2 : encodedFastaRecord) :
  length (Seq FR1) = length (Seq FR2) ->
  exists idxs,
    option_map snps (getSNPs_record hg (Seq FR2) FR1) =
      Some (map (snp_call hg (Seq FR2) (Seq FR1)) idxs) /\
    option_map snps (getSNPs_record hg (Seq FR1) FR2) =
      Some (map (snp_call hg (Seq FR1) (Seq FR2)) idxs).
Proof.
  intros Hlen.
  destruct (snps_loop_spec (decoding hg) (Seq FR2) 0 (Seq FR1)) as (i1 & Hl1 & Hs1 & Hm1);
    [lia|].
  destruct (snps_loop_spec (decoding hg) (Seq FR1) 0 (Seq FR2)) as (i2 & Hl2 & Hs2 & Hm2);
    [lia|].
  assert (Heq : i1 = i2).
  { apply sorted_lt_unique; [exact Hs1 | exact Hs2|]. intros x.
    rewrite Hm1, Hm2, !Nat.sub_0_r. unfold is_snp. rewrite Z.land_comm. rewrite Hlen.
    reflexivity. }
  subst i2. exists i1. unfold getSNPs_record. rewrite Hl1, Hl2. simpl.
  split; f_equal; apply map_ext; intros i; unfold snp_call; rewrite Nat.sub_0_r; reflexivity.
Qed.

Lemma getSNPs_swap_witness :
  length (Seq (mkRecord [] [] [136; 24] 0)) = length (Seq (mkRecord [] [] [40; 24] 1)) /\
  exists idxs,
    option_map snps (getSNPs_record false [40; 24] (mkRecord [] [] [136; 24] 0)) =
      Some (map (snp_call false [40; 24] [136; 24]) idxs) /\
    option_map snps (getSNPs_record false [136; 24] (mkRecord [] [] [40; 24] 1)) =
      Some (map (snp_call false [136; 24] [40; 24]) idxs).
Proof.
  split; [reflexivity|].
  apply (getSNPs_swap false (mkRecord [] [] [136; 24] 0) (mkRecord [] [] [40; 24] 1)).
  reflexivity.
Defined.

(** ** The aggregate writer *)

Lemma tally_perm results results' :
  Permutation results results' -> tally results = tally results'.
Proof.
  intros Hp.
  destruct (tally_spec results) as [H1 H2]. destruct (tally_spec results') as [H1' H2'].
  destruct (tally results) as [c pm], (tally results') as [c' pm']. simpl in *.
  f_equal.
  - rewrite H1, H1', (Permutation_length Hp). reflexivity.
  - apply map_eq. intros s. rewrite H2, H2'. unfold count_calls. f_equal.
    apply Permutation_count_occ, Permutation_flat_map, Hp.
Qed.

(** The aggregate output does not depend on the order in which the query
    results arrive on [cSNPs]: counts and the number of queries are the
    same for every arrival order. *)
Theorem aggregate_arrival_order (threshold : spec_float) (results results' : list snpLine)
        (enum : list string) :
  Permutation results results' ->
  aggregateWriteOutput threshold results enum = aggregateWriteOutput threshold results' enum.
Proof.
  intros Hp. unfold aggregateWriteOutput. rewrite (tally_perm results results' Hp).
  reflexivity.
Qed.

Lemma aggregate_arrival_order_witness :
  Permutation (rev scenarioF) scenarioF /\
  aggregateWriteOutput (S754_zero false) (rev scenarioF) ["G3T"]%string =
  aggregateWriteOutput (S754_zero false) scenarioF ["G3T"]%string.
Proof.
  assert (H : Permutation (rev scenarioF) scenarioF) by apply Permutation_sym, Permutation_rev.
  split; [exact H | apply aggregate_arrival_order, H].
Defined.

Lemma sliceStable_perm enum order n :
  sliceStable enum = Some (order, n) -> Permutation order enum.
Proof.
  unfold sliceStable. destruct (sort_loop [] enum) as [[rl m]|] eqn:Hl; [|discriminate].
  intros H. injection H as <- _. apply sort_loop_perm in Hl. rewrite app_nil_r in Hl.
  apply (Permutation_trans (Permutation_sym (Permutation_rev rl))), Hl.
Qed.

Lemma sliceStable_sorted enum :
  Forall well_formed_call enum ->
  exists order, sliceStable enum = Some (order, 0%nat) /\ StronglySorted call_le order.
Proof.
  intros Hwf. unfold sliceStable.
  destruct (sort_loop_sorted [] enum Hwf (Sorted_nil _)) as (rl & Hs & Hsorted).
  rewrite Hs. eexists. split; [reflexivity|].
  apply StronglySorted_rev_not_lt, Sorted_StronglySorted; [|exact Hsorted].
  intros x y z. apply not_lt_trans.
Qed.

Lemma sorted_call_le_unique (l1 l2 : list string) :
  StronglySorted call_le l1 -> StronglySorted call_le l2 -> Permutation l1 l2 ->
  (forall a b, In a l1 -> In b l1 -> call_le a b -> call_le b a -> a = b) ->
  l1 = l2.
Proof.
  revert l2. induction l1 as [|x t1 IH]; intros l2 H1 H2 Hp Hanti.
  - apply Permutation_nil in Hp. symmetry. exact Hp.
  - destruct l2 as [|y t2]; [apply Permutation_sym, Permutation_nil in Hp; discriminate|].
    inversion H1 as [|? ? H1' Hx]; subst. inversion H2 as [|? ? H2' Hy]; subst.
    assert (Hxy : x = y).
    { destruct (Permutation_in _ Hp (or_introl eq_refl)) as [-> | Hx2]; [reflexivity|].
      destruct (Permutation_in _ (Permutation_sym Hp) (or_introl eq_refl)) as [-> | Hy1];
        [reflexivity|].
      apply Hanti; [left; reflexivity | right; exact Hy1 | |].
      - exact (proj1 (List.Forall_forall _ _) Hx y Hy1).
      - exact (proj1 (List.Forall_forall _ _) Hy x Hx2). }
    subst y. f_equal. apply IH; [exact H1' | exact H2' | |].
    + apply (Permutation_cons_inv Hp).
    + intros a b Ha Hb. apply Hanti; right; assumption.
Qed.

(** When every change parses and no two changes share both position and
    allele byte, the aggregate output is the same for every iteration
    order of [propMap]: the stable sort leaves nothing to the map's
    random order. *)
Theorem aggregate_map_order_irrelevant (threshold : spec_float) (results : list snpLine)
        (enum1 enum2 : list string) :
  Permutation enum1 (propMap_keys results) -> Permutation enum2 (propMap_keys results) ->
  Forall well_formed_call enum1 ->
  (forall a b, In a enum1 -> In b enum1 ->
     call_pos a = call_pos b -> call_alt a = call_alt b -> a = b) ->
  aggregateWriteOutput threshold results enum1 = aggregateWriteOutput threshold results enum2.
Proof.
  intros Hp1 Hp2 Hwf Hties.
  assert (Hp : Permutation enum1 enum2) by (apply (Permutation_trans Hp1), Permutation_sym, Hp2).
  destruct (sliceStable_sorted enum1 Hwf) as (o1 & Hs1 & Ho1).
  destruct (sliceStable_sorted enum2 (Permutation_Forall Hp Hwf)) as (o2 & Hs2 & Ho2).
  assert (Hq1 := sliceStable_perm _ _ _ Hs1). assert (Hq2 := sliceStable_perm _ _ _ Hs2).
  assert (Ho : o1 = o2).
  { apply sorted_call_le_unique; [exact Ho1 | exact Ho2 | |].
    - apply (Permutation_trans Hq1), (Permutation_trans Hp), Permutation_sym, Hq2.
    - intros a b Ha Hb Hab Hba. apply Hties;
        try apply (Permutation_in _ Hq1); try assumption; unfold call_le in *; lia. }
  unfold aggregateWriteOutput. destruct (tally results). rewrite Hs1, Hs2, Ho. reflexivity.
Qed.

Lemma aggregate_map_order_irrelevant_witness :
  (Permutation ["G6W"; "A4T"; "G6C"; "G3T"]%string (propMap_keys scenarioF) /\
   Permutation ["G3T"; "G6C"; "A4T"; "G6W"]%string (propMap_keys scenarioF) /\
   Forall well_formed_call ["G6W"; "A4T"; "G6C"; "G3T"]%string /\
   (forall a b, In a ["G6W"; "A4T"; "G6C"; "G3T"]%string ->
      In b ["G6W"; "A4T"; "G6C"; "G3T"]%string ->
      call_pos a = call_pos b -> call_alt a = call_alt b -> a = b)) /\
  aggregateWriteOutput (S754_finite false 4503599627370496 (-54)) scenarioF ["G6W"; "A4T"; "G6C"; "G3T"]%string =
  aggregateWriteOutput (S754_finite false 4503599627370496 (-54)) scenarioF ["G3T"; "G6C"; "A4T"; "G6W"]%string.
Proof.
  assert (Hp1 : Permutation ["G6W"; "A4T"; "G6C"; "G3T"]%string (propMap_keys scenarioF)).
  { apply Permutation.NoDup_Permutation.
    - repeat constructor; simpl; intuition discriminate.
    - apply propMap_keys_nodup.
    - intros x. vm_compute. intuition. }
  assert (Hp2 : Permutation ["G3T"; "G6C"; "A4T"; "G6W"]%string (propMap_keys scenarioF)).
  { apply Permutation.NoDup_Permutation.
    - repeat constructor; simpl; intuition discriminate.
    - apply propMap_keys_nodup.
    - intros x. vm_compute. intuition. }
  assert (Hw : Forall well_formed_call ["G6W"; "A4T"; "G6C"; "G3T"]%string)
    by (repeat constructor).
  assert (Ht : forall a b, In a ["G6W"; "A4T"; "G6C"; "G3T"]%string ->
      In b ["G6W"; "A4T"; "G6C"; "G3T"]%string ->
      call_pos a = call_pos b -> call_alt a = call_alt b -> a = b).
  { intros a b Ha Hb.
    repeat (destruct Ha as [<- | Ha]; [|]); [| | | | destruct Ha];
    repeat (destruct Hb as [<- | Hb]; [|]); try destruct Hb;
    vm_compute; intros; congruence. }
  split; [repeat split; assumption|].
  apply aggregate_map_order_irrelevant; assumption.
Defined.







(** ** Calls read back by the aggregate writer *)

Lemma digit_byte (d : N) : (d < 10)%N -> ch (digit_char d) = 48 + Z.of_N d.
Proof.
  intros Hd.
  assert (H : (d = 0 \/ d = 1 \/ d = 2 \/ d = 3 \/ d = 4 \/ d = 5 \/ d = 6 \/ d = 7
               \/ d = 8 \/ d = 9)%N) by lia.
  repeat (destruct H as [-> | H]; [reflexivity|]). subst d. reflexivity.
Qed.

Lemma pos_size_bound (p : positive) : Z.pos p < 2 ^ Z.of_nat (Pos.size_nat p).
Proof.
  induction p as [p IH | p IH |]; simpl Pos.size_nat;
    [rewrite Nat2Z.inj_succ, Z.pow_succ_r by lia; rewrite Pos2Z.inj_xI; lia
    |rewrite Nat2Z.inj_succ, Z.pow_succ_r by lia; rewrite Pos2Z.inj_xO; lia
    |simpl; lia].
Qed.

Lemma utoa_go_spec fuel : forall (n : N) acc,
  (0 < fuel)%nat -> Z.of_N n < 10 ^ Z.of_nat fuel ->
  exists d c t,
    (1 <= d <= fuel)%nat /\ (d = 1%nat \/ 10 ^ (Z.of_nat d - 1) <= Z.of_N n) /\
    bytes_of_string (utoa_go fuel n acc) = c :: t /\ 48 <= c <= 57 /\
    length (c :: t) = (d + length (bytes_of_string acc))%nat /\
    forall k, atoi_fast (c :: t) k =
              atoi_fast (bytes_of_string acc) (k * 10 ^ Z.of_nat d + Z.of_N n).
Proof.
  induction fuel as [|f IH]; intros n acc Hf Hn; [lia|].
  assert (Hdiv : Z.of_N (N.div n 10) = Z.of_N n / 10) by (rewrite N2Z.inj_div; reflexivity).
  assert (Hmod : Z.of_N (N.modulo n 10) = Z.of_N n mod 10) by (rewrite N2Z.inj_mod; reflexivity).
  assert (Hm10 : (N.modulo n 10 < 10)%N) by (apply N.mod_lt; lia).
  assert (Hdig : ch (digit_char (N.modulo n 10)) = 48 + Z.of_N n mod 10)
    by (rewrite digit_byte by exact Hm10; rewrite Hmod; reflexivity).
  assert (Hstep : forall k, atoi_fast (bytes_of_string
                    (String (digit_char (N.modulo n 10)) acc)) k =
                  atoi_fast (bytes_of_string acc) (k * 10 + Z.of_N n mod 10)).
  { intros k. simpl bytes_of_string. rewrite Hdig. simpl.
    replace ((48 + Z.of_N n mod 10 - 48) mod 256) with (Z.of_N n mod 10).
    - assert (H9 : (9 <? Z.of_N n mod 10) = false).
      { apply Z.ltb_ge. pose proof (Z.mod_pos_bound (Z.of_N n) 10). lia. }
      rewrite H9. reflexivity.
    - rewrite Z.add_simpl_l. symmetry. apply Z.mod_small.
      pose proof (Z.mod_pos_bound (Z.of_N n) 10). lia. }
  pose proof (Z.mod_pos_bound (Z.of_N n) 10 ltac:(lia)) as Hb.
  pose proof (Z.div_mod (Z.of_N n) 10 ltac:(lia)) as Hdm.
  assert (Hnn : 0 <= Z.of_N n) by lia.
  simpl utoa_go. destruct (N.eqb (N.div n 10) 0) eqn:E.
  - apply N.eqb_eq in E. assert (Hz : Z.of_N n / 10 = 0) by (rewrite <- Hdiv, E; reflexivity).
    exists 1%nat, (48 + Z.of_N n mod 10), (bytes_of_string acc).
    split; [lia|]. split; [left; reflexivity|].
    split; [simpl; rewrite Hdig; reflexivity|]. split; [lia|].
    split; [reflexivity|]. intros k. rewrite <- Hdig. rewrite Hstep.
    f_equal. rewrite Hz in Hdm. simpl. lia.
  - apply N.eqb_neq in E. assert (Hpos : 1 <= Z.of_N n / 10).
    { rewrite <- Hdiv. lia. }
    destruct f as [|f'].
    + exfalso. simpl in Hn. assert (Z.of_N n / 10 = 0) by (apply Z.div_small; lia). lia.
    + assert (Hlt : Z.of_N (N.div n 10) < 10 ^ Z.of_nat (S f')).
      { rewrite Hdiv. apply Z.div_lt_upper_bound; [lia|].
        rewrite (Nat2Z.inj_succ (S f')), Z.pow_succ_r in Hn by lia. lia. }
      destruct (IH (N.div n 10) (String (digit_char (N.modulo n 10)) acc) ltac:(lia) Hlt)
        as (d & c & t & Hd & Hlow & Hbytes & Hc & Hlen & Hatoi).
      exists (S d), c, t. split; [lia|]. split.
      * right. replace (Z.of_nat (S d) - 1) with (Z.of_nat d) by lia.
        destruct Hlow as [-> | Hlow].
        -- simpl. lia.
        -- rewrite Hdiv in Hlow.
           replace (Z.of_nat d) with (Z.succ (Z.of_nat d - 1)) by lia.
           rewrite Z.pow_succ_r by lia. lia.
      * split; [exact Hbytes|]. split; [exact Hc|]. split.
        -- rewrite Hlen. simpl. lia.
        -- intros k. rewrite Hatoi, Hstep. f_equal.
           rewrite Nat2Z.inj_succ, Z.pow_succ_r by lia. rewrite Hdiv. lia.
Qed.

Lemma atoi_itoa (p : Z) : 0 <= p < 10 ^ 18 -> atoi (itoa p) = (p, true).
Proof.
  intros Hp. unfold itoa. rewrite (proj2 (Z.ltb_ge p 0)) by lia. unfold utoa.
  assert (Hsz : Z.of_N (Z.to_N p) < 10 ^ Z.of_nat (S (N.size_nat (Z.to_N p)))).
  { rewrite Z2N.id by lia. rewrite Nat2Z.inj_succ, Z.pow_succ_r by lia.
    assert (H2 : Z.of_N (Z.to_N p) < 2 ^ Z.of_nat (N.size_nat (Z.to_N p))).
    { destruct (Z.to_N p) as [|q]; [simpl; lia | apply pos_size_bound]. }
    assert (H3 : 2 ^ Z.of_nat (N.size_nat (Z.to_N p)) <= 10 ^ Z.of_nat (N.size_nat (Z.to_N p)))
      by (apply Z.pow_le_mono_l; lia).
    rewrite Z2N.id in H2 by lia. lia. }
  destruct (utoa_go_spec (S (N.size_nat (Z.to_N p))) (Z.to_N p) EmptyString ltac:(lia) Hsz)
    as (d & c & t & Hd & Hlow & Hbytes & Hc & Hlen & Hatoi).
  rewrite Z2N.id in Hlow, Hatoi by lia. simpl in Hlen. rewrite Nat.add_0_r in Hlen.
  assert (Hd18 : (d <= 18)%nat).
  { destruct Hlow as [-> | Hlow]; [lia|].
    destruct (Nat.le_gt_cases d 18) as [H|H]; [exact H|].
    assert (10 ^ 18 <= 10 ^ (Z.of_nat d - 1)) by (apply Z.pow_le_mono_r; lia). lia. }
  unfold atoi. rewrite Hbytes. cbn [length]. rewrite Hlen.
  assert (Hl : (0 <? d)%nat && (d <? 19)%nat = true).
  { apply andb_true_iff. split; apply Nat.ltb_lt; lia. }
  rewrite Hl.
  assert (Hs : (c =? ch "-") || (c =? ch "+") = false).
  { apply orb_false_iff. split; apply Z.eqb_neq; vm_compute; lia. }
  rewrite Hs. simpl andb. cbv iota. rewrite Hatoi. simpl.
  assert (Hm : (c =? ch "-") = false) by (apply Z.eqb_neq; vm_compute; lia).
  rewrite Hm. reflexivity.
Qed.

Lemma string_length_app (u v : string) :
  String.length (u ++ v) = (String.length u + String.length v)%nat.
Proof. induction u as [|a u IH]; simpl; [reflexivity | rewrite IH; reflexivity]. Qed.

Lemma substring_app (u v : string) : substring 0 (String.length u) (u ++ v) = u.
Proof. induction u as [|a u IH]; simpl; [destruct v; reflexivity | rewrite IH; reflexivity]. Qed.

Lemma get_app_length (u v : string) b : get (String.length u) (u ++ String b v) = Some b.
Proof. induction u as [|a u IH]; simpl; [reflexivity | exact IH]. Qed.

Lemma parse_call_shape (a b : ascii) (u : string) :
  parse_call (String a (u ++ String b EmptyString)) =
  Some (fst (atoi u), snd (atoi u), ch b).
Proof.
  unfold parse_call. cbn [String.length]. rewrite string_length_app. cbn [String.length].
  replace (S (String.length u + 1) <? 2)%nat with false
    by (symmetry; apply Nat.ltb_ge; lia).
  replace (S (String.length u + 1) - 2)%nat with (String.length u) by lia.
  replace (S (String.length u + 1) - 1)%nat with (S (String.length u)) by lia.
  cbn [substring get]. rewrite substring_app, get_app_length. reflexivity.
Qed.

Lemma snp_call_parse (hg : bool) (refSeq q : list Z) (i : nat) (a b : ascii) :
  decoding hg (nth i refSeq 0) = String a EmptyString ->
  decoding hg (nth i q 0) = String b EmptyString ->
  Z.of_nat i + 1 < 10 ^ 18 ->
  parse_call (snp_call hg refSeq q i) = Some (Z.of_nat i + 1, true, ch b).
Proof.
  intros Ha Hb Hi. unfold snp_call. rewrite Ha, Hb.
  change (String a EmptyString ++ (itoa (Z.of_nat i + 1) ++ String b EmptyString))%string
    with (String a (itoa (Z.of_nat i + 1) ++ String b EmptyString)).
  rewrite parse_call_shape, atoi_itoa by lia. reflexivity.
Qed.

Lemma decoding_one_char (hg : bool) (c : Z) :
  decoding hg c = ""%string \/ exists a, decoding hg c = String a EmptyString.
Proof.
  destruct hg; unfold decoding, makeDecodingArrayHardGaps, makeDecodingArray, build;
    match goal with
    | |- fold_left _ ?ws ?t c = _ \/ _ =>
        destruct (build_go_cases ws t c) as [H | H]; [left; exact H|];
        remember (fold_left _ ws t c) as v eqn:Hv; clear Hv
    end;
    right; simpl in H;
    repeat (destruct H as [H | H]; [injection H as _ <-; eexists; reflexivity|]);
    destruct H.
Qed.

(** The aggregate writer reads back what [getSNPs] writes: for a call at
    0-based position [i] whose two alleles decode to one character each,
    [s[1:len(s)-1]] parses with [strconv.Atoi] to the 1-based position
    [i+1] without error, and [s[len(s)-1]] is the query allele. *)
Theorem snp_call_parses (hg : bool) (refSeq q : list Z) (i : nat) (a b : ascii) :
  decoding hg (nth i refSeq 0) = String a EmptyString ->
  decoding hg (nth i q 0) = String b EmptyString ->
  Z.of_nat i + 1 < 10 ^ 18 ->
  parse_call (snp_call hg refSeq q i) = Some (Z.of_nat i + 1, true, ch b).
Proof. apply snp_call_parse. Qed.

Lemma snp_call_parses_witness :
  (decoding false (nth 11 (repeat 136 12) 0) = String "A" EmptyString /\
   decoding false (nth 11 (repeat 40 12) 0) = String "C" EmptyString /\
   Z.of_nat 11 + 1 < 10 ^ 18) /\
  parse_call (snp_call false (repeat 136 12) (repeat 40 12) 11) = Some (12, true, ch "C").
Proof.
  assert (H1 : decoding false (nth 11 (repeat 136 12) 0) = String "A" EmptyString)
    by (vm_compute; reflexivity).
  assert (H2 : decoding false (nth 11 (repeat 40 12) 0) = String "C" EmptyString)
    by (vm_compute; reflexivity).
  assert (H3 : Z.of_nat 11 + 1 < 10 ^ 18) by (vm_compute; reflexivity).
  split; [split; [exact H1 | split; [exact H2 | exact H3]]|].
  exact (snp_call_parses false _ _ 11 "A" "C" H1 H2 H3).
Defined.

Lemma getSNPs_calls_in hg refSeq records sls s :
  getSNPs hg refSeq records = Some sls -> In s (flat_map snps sls) ->
  exists FR i, In FR records /\ (i < length (Seq FR))%nat /\
    (length (Seq FR) <= length refSeq)%nat /\ s = snp_call hg refSeq (Seq FR) i.
Proof.
  revert sls. induction records as [|FR rest IH]; intros sls H Hs; simpl in H.
  - injection H as <-. destruct Hs.
  - destruct (getSNPs_record hg refSeq FR) as [SL|] eqn:E1; [|discriminate].
    destruct (getSNPs hg refSeq rest) as [SLs|] eqn:E2; [|discriminate].
    injection H as <-. simpl in Hs. apply in_app_iff in Hs. destruct Hs as [Hs | Hs].
    + unfold getSNPs_record in E1.
      destruct (Nat.le_gt_cases (length (Seq FR)) (length refSeq)) as [Hle | Hgt].
      * destruct (snps_loop_spec (decoding hg) refSeq 0 (Seq FR) Hle) as (idxs & Hl & _ & Hm).
        rewrite Hl in E1. injection E1 as <-. simpl in Hs.
        apply in_map_iff in Hs. destruct Hs as (i & <- & Hi).
        apply Hm in Hi. exists FR, i. split; [left; reflexivity|].
        split; [lia|]. split; [exact Hle|]. unfold snp_call. rewrite Nat.sub_0_r. reflexivity.
      * assert (Hn : snps_loop (decoding hg) refSeq 0 (Seq FR) = None).
        { apply snps_loop_none. split; [|lia]. intros Hn. rewrite Hn in Hgt. simpl in Hgt. lia. }
        rewrite Hn in E1. discriminate.
    + destruct (IH SLs eq_refl Hs) as (FR' & i & H1 & H2 & H3 & H4).
      exists FR', i. split; [right; exact H1 | auto].
Qed.

(** When the reference and the query records hold only codes the
    decoding table defines (the codes of the 32 symbols) and the reference
    is shorter than 10^18, every change [getSNPs] produces parses in the
    aggregate writer: the sort sends no error and does not panic. *)
Theorem aggregate_of_defined_symbols_no_error (hg : bool) (refSeq : list Z)
        (records : list encodedFastaRecord) (sls : list snpLine)
        (threshold : spec_float) (enum : list string) :
  getSNPs hg refSeq records = Some sls ->
  Forall (fun c => decoding hg c <> ""%string) refSeq ->
  Forall (fun FR => Forall (fun c => decoding hg c <> ""%string) (Seq FR)) records ->
  Z.of_nat (length refSeq) < 10 ^ 18 ->
  Permutation enum (propMap_keys sls) ->
  Forall well_formed_call (propMap_keys sls) /\
  exists lines, aggregateWriteOutput threshold sls enum = Some (0%nat, lines).
Proof.
  intros Hg Hr Hq Hlen Hp.
  assert (Hwf : Forall well_formed_call (propMap_keys sls)).
  { apply List.Forall_forall. intros s Hs. apply in_propMap_keys in Hs.
    unfold count_calls in Hs. apply (count_occ_In string_dec) in Hs.
    destruct (getSNPs_calls_in hg refSeq records sls s Hg Hs)
      as (FR & i & HFR & Hi & Hle & ->).
    assert (Hra : decoding hg (nth i refSeq 0) <> ""%string).
    { apply (proj1 (List.Forall_forall _ _) Hr). apply nth_In. lia. }
    assert (Hqa : decoding hg (nth i (Seq FR) 0) <> ""%string).
    { apply (proj1 (List.Forall_forall _ _) (proj1 (List.Forall_forall _ _) Hq FR HFR)).
      apply nth_In. exact Hi. }
    destruct (decoding_one_char hg (nth i refSeq 0)) as [H | [a Ha]]; [contradiction|].
    destruct (decoding_one_char hg (nth i (Seq FR) 0)) as [H | [b Hb]]; [contradiction|].
    unfold well_formed_call. rewrite (snp_call_parse hg refSeq (Seq FR) i a b Ha Hb) by lia.
    exact I. }
  split; [exact Hwf|].
  destruct (sliceStable_sorted enum (Permutation_Forall (Permutation_sym Hp) Hwf))
    as (order & Hs & _).
  unfold aggregateWriteOutput. destruct (tally sls). rewrite Hs. eexists. reflexivity.
Qed.

Lemma aggregate_of_defined_symbols_no_error_witness :
  (getSNPs false [136; 24] [mkRecord [] [] [40; 24] 0] =
     Some [mkSnpLine [] ["A1C"%string] 0] /\
   Forall (fun c => decoding false c <> ""%string) [136; 24] /\
   Forall (fun FR => Forall (fun c => decoding false c <> ""%string) (Seq FR))
          [mkRecord [] [] [40; 24] 0] /\
   Z.of_nat (length [136; 24]) < 10 ^ 18 /\
   Permutation ["A1C"%string] (propMap_keys [mkSnpLine [] ["A1C"%string] 0])) /\
  Forall well_formed_call (propMap_keys [mkSnpLine [] ["A1C"%string] 0]) /\
  exists lines, aggregateWriteOutput (S754_zero false) [mkSnpLine [] ["A1C"%string] 0] ["A1C"%string] =
                Some (0%nat, lines).
Proof.
  assert (H1 : getSNPs false [136; 24] [mkRecord [] [] [40; 24] 0] =
     Some [mkSnpLine [] ["A1C"%string] 0]) by (vm_compute; reflexivity).
  assert (H2 : Forall (fun c => decoding false c <> ""%string) [136; 24])
    by (repeat constructor; vm_compute; discriminate).
  assert (H3 : Forall (fun FR => Forall (fun c => decoding false c <> ""%string) (Seq FR))
          [mkRecord [] [] [40; 24] 0])
    by (repeat constructor; vm_compute; discriminate).
  assert (H4 : Z.of_nat (length [136; 24]) < 10 ^ 18) by (vm_compute; reflexivity).
  assert (H5 : Permutation ["A1C"%string] (propMap_keys [mkSnpLine [] ["A1C"%string] 0]))
    by (vm_compute; reflexivity).
  split; [repeat split; assumption|].
  exact (aggregate_of_defined_symbols_no_error false _ _ _ (S754_zero false) _ H1 H2 H3 H4 H5).
Defined.

(** ** Record numbering and the ordered pipeline *)

Lemma records_of_app l1 l2 : records_of (l1 ++ l2) = records_of l1 ++ records_of l2.
Proof.
  induction l1 as [|e l1 IH]; [reflexivity|].
  destruct e; simpl; rewrite ?IH; reflexivity.
Qed.

Lemma read_loop_indices enc e lines : forall st evs r,
  read_loop enc e st lines = (evs, r) ->
  map idx (records_of evs) = seq (counter st) (length (records_of evs)).
Proof.
  induction lines as [|line rest IH]; intros st evs r H; simpl in H.
  - injection H as <- _. simpl. rewrite records_of_app.
    destruct e; reflexivity.
  - unfold read_step in H. destruct line as [|b0 l0].
    + injection H as <- _. reflexivity.
    + destruct (first st).
      * destruct (set_header st (b0 :: l0)) as [f|st'] eqn:Hs.
        -- injection H as <- _. destruct (Z.eqb b0 (ch ">")); reflexivity.
        -- destruct (read_loop enc e st' rest) as [evs' r'] eqn:Hl.
           injection H as <- _. unfold set_header in Hs.
           destruct (first_field (tl (b0 :: l0))); [|discriminate].
           injection Hs as <-. rewrite records_of_app.
           assert (Hn : records_of (if Z.eqb b0 (ch ">") then []
                        else [EvError "badly formatted fasta file"]) = []).
           { destruct (Z.eqb b0 (ch ">")); reflexivity. }
           rewrite Hn. simpl. exact (IH _ _ _ Hl).
      * destruct (Z.eqb b0 (ch ">")).
        -- destruct (set_header (mkState false (rid st) (rdescription st) []
                                  (S (counter st))) (b0 :: l0)) as [f|st'] eqn:Hs.
           ++ injection H as <- _. reflexivity.
           ++ destruct (read_loop enc e st' rest) as [evs' r'] eqn:Hl.
              injection H as <- _. unfold set_header in Hs.
              destruct (first_field (tl (b0 :: l0))); [|discriminate].
              injection Hs as <-. simpl. f_equal. exact (IH _ _ _ Hl).
        -- destruct (read_loop enc e _ rest) as [evs' r'] eqn:Hl.
           injection H as <- _. exact (IH _ _ _ Hl).
Qed.

(** Whatever the input, the records the reader sends carry the
    ordinals [0, 1, 2, ...] in the order they are sent: [counter] starts
    at 0 and grows by one exactly when a record is sent. *)
Theorem reader_record_indices (hardGaps : bool) (data : list Z) :
  map idx (records_of (fst (readEncodeAlignment hardGaps data))) =
  seq 0 (length (records_of (fst (readEncodeAlignment hardGaps data)))).
Proof.
  unfold readEncodeAlignment. destruct (scan_lines data) as [lines err].
  destruct (read_loop (encoding hardGaps) err init_state lines) as [evs r] eqn:H.
  exact (read_loop_indices _ _ _ _ _ _ H).
Qed.




(** ** The ordered writer with missing ordinals *)

Lemma find_none_existsb {A} (f : A -> bool) l :
  existsb f l = false -> find f l = None.
Proof.
  induction l as [|a l IH]; simpl; [reflexivity|].
  intros H. apply orb_false_iff in H. destruct H as [-> H]. exact (IH H).
Qed.

Lemma rec_of_missing R k : arrived R k = false -> rec_of R k = zero_snpLine.
Proof. intros H. unfold rec_of, arrived in *. rewrite find_none_existsb by exact H. reflexivity. Qed.

Section GapWriter.

Variable R : list snpLine.
Variable N : nat.
Hypothesis HND : List.NoDup (map sidx R).
Hypothesis Hbelow : Forall (fun s => (sidx s < N)%nat) R.
Hypothesis Htop : N = 0%nat \/ In (N - 1)%nat (map sidx R).

Lemma gap_rec_of_sidx s : In s R -> rec_of R (sidx s) = s.
Proof.
  intros Hin. unfold rec_of. rewrite (find_idx_unique R s HND Hin). reflexivity.
Qed.

Lemma gap_writer_inv_step p q s st :
  R = p ++ s :: q -> writer_inv R p st -> writer_inv R (p ++ [s]) (write_arrive st s).
Proof.
  intros HRpq (Hw & Hm & Hc).
  assert (Hns : ~ In (sidx s) (map sidx p)).
  { pose proof HND as Hnd. rewrite HRpq, map_app in Hnd. simpl in Hnd.
    apply NoDup_remove_2 in Hnd. rewrite in_app_iff in Hnd. tauto. }
  assert (HsR : In s R) by (rewrite HRpq; apply in_or_app; simpl; tauto).
  assert (Hge : (wcounter st <= sidx s)%nat).
  { destruct (Nat.le_gt_cases (wcounter st) (sidx s)) as [H|H]; [exact H|].
    exfalso. apply Hns, arrived_in, Hc, H. }
  assert (Hm1 : forall k, (<[sidx s := s]> (outputMap st)) !! k =
     if (wcounter st <=? k)%nat && arrived (p ++ [s]) k then Some (rec_of R k) else None).
  { intros k. rewrite arrived_app. destruct (Nat.eq_dec (sidx s) k) as [<-|Hne].
    - rewrite lookup_insert_eq, Nat.eqb_refl, orb_true_r.
      apply Nat.leb_le in Hge. rewrite Hge. simpl. rewrite gap_rec_of_sidx; auto.
    - rewrite lookup_insert_ne by exact Hne. rewrite Hm.
      apply Nat.eqb_neq in Hne. rewrite Hne, orb_false_r. reflexivity. }
  unfold write_arrive. rewrite (Hm1 (wcounter st)). rewrite Nat.leb_refl. simpl.
  destruct (arrived (p ++ [s]) (wcounter st)) eqn:Ha.
  - unfold writer_inv. cbn [written wcounter outputMap]. split; [|split].
    + rewrite Hw, seq_S, map_app. reflexivity.
    + intros k. destruct (Nat.eq_dec (wcounter st) k) as [<-|Hne].
      * rewrite lookup_delete_eq. rewrite (proj2 (Nat.leb_gt _ _)) by lia. reflexivity.
      * rewrite lookup_delete_ne by exact Hne. rewrite Hm1.
        destruct (Nat.leb_spec (wcounter st) k), (Nat.leb_spec (S (wcounter st)) k);
          try reflexivity; lia.
    + intros k Hk. destruct (Nat.eq_dec k (wcounter st)) as [->|Hne]; [exact Ha|].
      rewrite arrived_app, Hc by lia. reflexivity.
  - unfold writer_inv. simpl. split; [exact Hw|]. split; [exact Hm1|].
    intros k Hk. rewrite arrived_app, Hc by exact Hk. reflexivity.
Qed.

Lemma gap_writer_inv_fold p q st :
  R = p ++ q -> writer_inv R p st -> writer_inv R R (fold_left write_arrive q st).
Proof.
  revert p st. induction q as [|s q IH]; intros p st HRpq Hinv.
  - simpl. rewrite app_nil_r in HRpq. subst. exact Hinv.
  - simpl. apply (IH (p ++ [s])).
    + rewrite HRpq, <- app_assoc. reflexivity.
    + apply (gap_writer_inv_step p q); assumption.
Qed.

Lemma gap_arrived_below k : arrived R k = true -> (k < N)%nat.
Proof.
  intros H. apply arrived_in, in_map_iff in H. destruct H as (s & <- & Hs).
  exact (proj1 (List.Forall_forall _ _) Hbelow s Hs).
Qed.

Lemma gap_arrived_top : (0 < N)%nat -> arrived R (N - 1) = true.
Proof.
  intros HN. destruct Htop as [H0 | Hin]; [lia|].
  apply in_map_iff in Hin. destruct Hin as (s & Hs & Hin).
  unfold arrived. apply existsb_exists. exists s. rewrite Hs, Nat.eqb_refl. auto.
Qed.

Lemma gap_write_flush fuel m c out :
  (N - c < fuel)%nat ->
  (forall k, m !! k = if (c <=? k)%nat && arrived R k then Some (rec_of R k) else None) ->
  write_flush fuel m c out =
    Some (out ++ map (fun k => render (rec_of R k)) (seq c (N - c))).
Proof.
  revert m c out. induction fuel as [|f IH]; intros m c out Hf Hm; [lia|].
  simpl. destruct (Nat.lt_ge_cases c N) as [Hlt|Hge].
  - assert (Htopm : m !! (N - 1)%nat = Some (rec_of R (N - 1))).
    { rewrite Hm, gap_arrived_top by lia.
      rewrite (proj2 (Nat.leb_le c (N - 1))) by lia. reflexivity. }
    assert (Hsz : Nat.eqb (size m) 0 = false).
    { apply Nat.eqb_neq. intros H0. apply map_size_empty_iff in H0.
      rewrite H0, lookup_empty in Htopm. discriminate. }
    assert (Hmc : match m !! c with Some s => s | None => zero_snpLine end = rec_of R c).
    { rewrite Hm, Nat.leb_refl. simpl.
      destruct (arrived R c) eqn:Ha; [reflexivity|]. symmetry. apply rec_of_missing, Ha. }
    rewrite Hsz, Hmc. rewrite IH.
    + replace (N - c)%nat with (S (N - S c)) by lia. simpl.
      rewrite <- app_assoc. reflexivity.
    + lia.
    + intros k. destruct (Nat.eq_dec c k) as [<-|Hne].
      * rewrite lookup_delete_eq. rewrite (proj2 (Nat.leb_gt _ _)) by lia. reflexivity.
      * rewrite lookup_delete_ne by exact Hne. rewrite Hm.
        destruct (Nat.leb_spec c k), (Nat.leb_spec (S c) k); try reflexivity; lia.
  - assert (Hemp : m = ∅).
    { apply map_empty. intros k. rewrite Hm.
      destruct (Nat.leb_spec c k); [|reflexivity].
      destruct (arrived R k) eqn:Ha; [|reflexivity].
      apply gap_arrived_below in Ha. lia. }
    rewrite Hemp, map_size_empty. simpl.
    replace (N - c)%nat with 0%nat by lia. simpl. rewrite app_nil_r. reflexivity.
Qed.

Lemma gap_writeOutput fuel :
  (N < fuel)%nat ->
  writeOutput fuel R =
    Some (header_line :: map (fun k => render (rec_of R k)) (seq 0 N)).
Proof.
  intros Hf. unfold writeOutput.
  assert (Hinv0 : writer_inv R [] (mkWriter ∅ 0 [header_line])).
  { split; [reflexivity|]. split.
    - intros k. cbn [outputMap]. rewrite lookup_empty. reflexivity.
    - intros k Hk. simpl in Hk. lia. }
  destruct (gap_writer_inv_fold [] R _ eq_refl Hinv0) as (Hw & Hm & Hc).
  set (st := fold_left write_arrive R (mkWriter ∅ 0 [header_line])) in *.
  assert (HcN : (wcounter st <= N)%nat).
  { destruct (Nat.le_gt_cases (wcounter st) N) as [H|H]; [exact H|].
    specialize (Hc N H). apply gap_arrived_below in Hc. lia. }
  rewrite (gap_write_flush fuel (outputMap st) (wcounter st) (written st)).
  - rewrite Hw. simpl. f_equal. f_equal.
    rewrite <- map_app, <- seq_app. f_equal. f_equal. lia.
  - lia.
  - exact Hm.
Qed.

End GapWriter.

(** When the results carry distinct ordinals that leave gaps below the
    largest one [N-1], [writeOutput] still stops and writes, after the
    header, one line per ordinal [0 .. N-1] in order: the result with
    that ordinal, or for a missing ordinal the zero [snpLine{}] the map
    lookup returns, rendered as [",\n"]. *)
Theorem writeOutput_fills_gaps (arrivals : list snpLine) (N fuel : nat) :
  List.NoDup (map sidx arrivals) ->
  Forall (fun s => (sidx s < N)%nat) arrivals ->
  N = 0%nat \/ In (N - 1)%nat (map sidx arrivals) ->
  (N < fuel)%nat ->
  writeOutput fuel arrivals =
    Some (header_line ::
          map (fun k => match find (fun s => Nat.eqb (sidx s) k) arrivals with
                        | Some s => render s
                        | None => [ch ","; 10]
                        end) (seq 0 N)).
Proof.
  intros Hnd Hb Ht Hf. rewrite (gap_writeOutput arrivals N Hnd Hb Ht fuel Hf).
  f_equal. f_equal. apply List.map_ext. intros k. unfold rec_of.
  destruct (find _ arrivals); reflexivity.
Qed.

Lemma writeOutput_fills_gaps_witness :
  let arrivals := [mkSnpLine [98] ["A3C"%string] 3; mkSnpLine [97] [] 0] in
  (List.NoDup (map sidx arrivals) /\
   Forall (fun s => (sidx s < 4)%nat) arrivals /\
   ((4 = 0)%nat \/ In (4 - 1)%nat (map sidx arrivals)) /\ (4 < 5)%nat) /\
  writeOutput 5 arrivals =
    Some (header_line ::
          map (fun k => match find (fun s => Nat.eqb (sidx s) k) arrivals with
                        | Some s => render s
                        | None => [ch ","; 10]
                        end) (seq 0 4)).
Proof.
  intros arrivals.
  assert (H1 : List.NoDup (map sidx arrivals))
    by (simpl; repeat constructor; simpl; intuition discriminate).
  assert (H2 : Forall (fun s => (sidx s < 4)%nat) arrivals)
    by (repeat constructor; simpl; lia).
  assert (H3 : (4 = 0)%nat \/ In (4 - 1)%nat (map sidx arrivals))
    by (right; simpl; left; reflexivity).
  assert (H4 : (4 < 5)%nat) by lia.
  split; [repeat split; assumption|].
  exact (writeOutput_fills_gaps arrivals 4 5 H1 H2 H3 H4).
Defined.

(** ** Reading well-formed FASTA text *)

Lemma scan_go_line l rest cur n :
  ~ In 10 l -> (n + length l < maxScanTokenSize)%nat ->
  scan_go (l ++ 10 :: rest) cur n =
    (dropCR (rev cur ++ l) :: fst (scan_go rest [] 0), snd (scan_go rest [] 0)).
Proof.
  revert cur n. induction l as [|b l IH]; intros cur n Hl Hn.
  - cbn [app scan_go]. rewrite (proj2 (Nat.leb_gt _ _)) by (cbn [length] in Hn; lia).
    rewrite Z.eqb_refl, app_nil_r. destruct (scan_go rest [] 0); reflexivity.
  - cbn [app scan_go]. rewrite (proj2 (Nat.leb_gt _ _)) by (cbn [length] in Hn; lia).
    rewrite (proj2 (Z.eqb_neq b 10)) by (intros ->; apply Hl; left; reflexivity).
    rewrite IH.
    + cbn [rev]. rewrite <- app_assoc. reflexivity.
    + intros H. apply Hl. right. exact H.
    + cbn [length] in Hn. lia.
Qed.

Lemma dropCR_eq l :
  dropCR l = match rev l with x :: r => if Z.eqb x 13 then rev r else l | [] => l end.
Proof.
  unfold dropCR. destruct (rev l) as [|x r]; [reflexivity|].
  destruct (Z.eqb_spec x 13) as [->|Hne]; [reflexivity|].
  destruct x as [|p|p]; try reflexivity.
  repeat (destruct p as [p|p|]; try reflexivity).
  exfalso. apply Hne. reflexivity.
Qed.

Lemma dropCR_plain l : ~ In 13 l -> dropCR l = l.
Proof.
  intros H. rewrite dropCR_eq. destruct (rev l) as [|x r] eqn:E; [reflexivity|].
  destruct (Z.eqb_spec x 13) as [->|_]; [|reflexivity].
  exfalso. apply H. apply in_rev. rewrite E. left. reflexivity.
Qed.

Lemma dropCR_cr l : dropCR (l ++ [13]) = l.
Proof. unfold dropCR. rewrite rev_app_distr. simpl. apply rev_involutive. Qed.

Lemma scan_plain_lines eol Ls :
  (eol = [10] \/ eol = [13; 10]) -> Forall plain_line Ls ->
  scan_lines (flat_map (fun l => l ++ eol) Ls) = (Ls, false).
Proof.
  unfold scan_lines. intros Heol. induction Ls as [|l Ls IH]; intros HP; [reflexivity|].
  inversion HP as [|? ? (H10 & H13 & Hlen) HP']; subst.
  simpl flat_map. destruct Heol as [-> | ->].
  - rewrite <- app_assoc. simpl app at 2.
    rewrite scan_go_line by (try exact H10; lia).
    rewrite IH by exact HP'. simpl. rewrite dropCR_plain by exact H13. reflexivity.
  - replace ((l ++ [13; 10]) ++ flat_map (fun l0 => l0 ++ [13; 10]) Ls)
      with ((l ++ [13]) ++ 10 :: flat_map (fun l0 => l0 ++ [13; 10]) Ls)
      by (rewrite <- !app_assoc; reflexivity).
    rewrite scan_go_line.
    + rewrite IH by exact HP'. simpl. rewrite dropCR_cr. reflexivity.
    + rewrite in_app_iff. simpl. intros [H | [H | H]]; [exact (H10 H) | lia | exact H].
    + rewrite length_app. simpl. lia.
Qed.

Lemma fasta_text_lines eol entries :
  fasta_text eol entries =
  flat_map (fun l => l ++ eol) (flat_map (fun e => (ch ">" :: fst e) :: snd e) entries).
Proof.
  induction entries as [|e rest IH]; [reflexivity|].
  unfold fasta_text in *. simpl flat_map at 1 3. rewrite flat_map_app, <- IH.
  simpl. rewrite <- !app_assoc. reflexivity.
Qed.

Lemma read_seq_lines enc err i d buf k Ls rest :
  Forall (fun l => match l with b :: _ => b <> ch ">" | [] => False end) Ls ->
  read_loop enc err (mkState false i d buf k) (Ls ++ rest) =
  read_loop enc err (mkState false i d (buf ++ map enc (concat Ls)) k) rest.
Proof.
  revert buf. induction Ls as [|l Ls IH]; intros buf H.
  - simpl. rewrite app_nil_r. reflexivity.
  - inversion H as [|? ? Hl H']; subst. destruct l as [|b l]; [destruct Hl|].
    simpl app. cbn [read_loop read_step first].
    rewrite (proj2 (Z.eqb_neq b (ch ">")) Hl). cbn [rid rdescription seqBuffer counter].
    rewrite IH by exact H'. rewrite <- app_assoc, <- map_app. simpl concat.
    destruct (read_loop _ _ _ rest); reflexivity.
Qed.

Lemma read_entries enc err i d buf k entries :
  Forall fasta_entry_ok entries ->
  read_loop enc err (mkState false i d buf k)
            (flat_map (fun e => (ch ">" :: fst e) :: snd e) entries) =
  (EvRecord (mkRecord i d buf k) :: map EvRecord (fasta_records enc (S k) entries)
     ++ (if err then [EvError "bufio.Scanner: token too long"] else []) ++ [EvDone], None).
Proof.
  revert i d buf k. induction entries as [|e rest IH]; intros i d buf k H; [reflexivity|].
  inversion H as [|? ? (_ & Hf & Hs) H']; subst.
  destruct (first_field (fst e)) as [i'|] eqn:Ef; [|contradiction].
  simpl flat_map. cbn [read_loop read_step first].
  rewrite Z.eqb_refl. unfold set_header. cbn [tl seqBuffer counter rid rdescription].
  rewrite Ef.
  assert (Hs' : Forall (fun l => match l with b :: _ => b <> ch ">" | [] => False end) (snd e)).
  { apply List.Forall_forall. intros l Hl. apply (proj1 (List.Forall_forall _ _) Hs l Hl). }
  rewrite read_seq_lines by exact Hs'. rewrite IH by exact H'. simpl.
  unfold fasta_id. rewrite Ef. reflexivity.
Qed.

Lemma read_fasta_entries (hardGaps : bool) (eol : list Z)
        (entries : list (list Z * list (list Z))) :
  (eol = [10] \/ eol = [13; 10]) -> entries <> [] -> Forall fasta_entry_ok entries ->
  readEncodeAlignment hardGaps (fasta_text eol entries) =
    (map EvRecord (fasta_records (encoding hardGaps) 0 entries) ++ [EvDone], None).
Proof.
  intros Heol Hne H. destruct entries as [|e rest]; [contradiction|].
  unfold readEncodeAlignment.
  assert (HP : Forall plain_line (flat_map (fun e => (ch ">" :: fst e) :: snd e) (e :: rest))).
  { apply List.Forall_forall. intros l Hl. apply in_flat_map in Hl.
    destruct Hl as (e' & He' & Hl).
    destruct (proj1 (List.Forall_forall _ _) H e' He') as (Hh & _ & Hs).
    destruct Hl as [<- | Hl]; [exact Hh|].
    exact (proj1 (proj1 (List.Forall_forall _ _) Hs l Hl)). }
  rewrite fasta_text_lines, (scan_plain_lines eol _ Heol HP).
  inversion H as [|? ? (_ & Hf & Hs) H']; subst.
  destruct (first_field (fst e)) as [i'|] eqn:Ef; [|contradiction].
  simpl flat_map. cbn [read_loop read_step first init_state].
  rewrite Z.eqb_refl. unfold set_header. cbn [tl seqBuffer counter].
  rewrite Ef.
  assert (Hs' : Forall (fun l => match l with b :: _ => b <> ch ">" | [] => False end) (snd e)).
  { apply List.Forall_forall. intros l Hl. apply (proj1 (List.Forall_forall _ _) Hs l Hl). }
  rewrite read_seq_lines by exact Hs'. rewrite read_entries by exact H'. simpl.
  unfold fasta_id. rewrite Ef. reflexivity.
Qed.

(** Text made of well-formed FASTA entries, with every line ended by
    ["\n"], or every line by ["\r\n"], is read as written: one record per entry, in
    order, numbered from 0, with [ID] the first field of the header,
    [Description] the header after ['>'] and [Seq] the encoded bytes of
    all its sequence lines concatenated; then [cdone], and no error. *)
Theorem readEncodeAlignment_fasta (hardGaps : bool) (eol : list Z)
        (entries : list (list Z * list (list Z))) :
  (eol = [10] \/ eol = [13; 10]) -> entries <> [] -> Forall fasta_entry_ok entries ->
  readEncodeAlignment hardGaps (fasta_text eol entries) =
    (map EvRecord (fasta_records (encoding hardGaps) 0 entries) ++ [EvDone], None).
Proof. apply read_fasta_entries. Qed.

Lemma readEncodeAlignment_fasta_witness :
  let entries := [([97], [[65; 67]]); ([98; 32; 120], [[71]; [84; 45]])] in
  (([13; 10] = [10] \/ [13; 10] = [13; 10]) /\ entries <> [] /\
   Forall fasta_entry_ok entries) /\
  readEncodeAlignment false (fasta_text [13; 10] entries) =
    (map EvRecord (fasta_records (encoding false) 0 entries) ++ [EvDone], None).
Proof.
  intros entries.
  assert (H1 : [13; 10] = [10] \/ [13; 10] = [13; 10]) by (right; reflexivity).
  assert (H2 : entries <> []) by discriminate.
  assert (H3 : Forall fasta_entry_ok entries).
  { repeat first [ apply List.Forall_nil | apply List.Forall_cons
                 | progress unfold fasta_entry_ok, plain_line | apply conj
                 | apply Nat.ltb_lt; vm_compute; reflexivity
                 | vm_compute; discriminate
                 | simpl; intuition discriminate ]. }
  split; [repeat split; assumption|].
  exact (readEncodeAlignment_fasta false [13; 10] entries H1 H2 H3).
Defined.

(** ** A first line that is not a header; a line too long for the scanner *)




Lemma scan_go_too_long L rest cur n :
  ~ In 10 L -> n = length cur -> (maxScanTokenSize <= n + length L)%nat ->
  scan_go (L ++ rest) cur n = ([], true).
Proof.
  assert (Hpos : (0 < maxScanTokenSize)%nat)
    by (apply Nat.ltb_lt; vm_compute; reflexivity).
  revert cur n. induction L as [|b L IH]; intros cur n HL Hn Hmax.
  - cbn [app length] in *. rewrite Nat.add_0_r in Hmax.
    destruct rest as [|b rest].
    + destruct cur as [|x cur]; [simpl in Hn; lia|].
      cbn [scan_go]. rewrite (proj2 (Nat.leb_le _ _) Hmax). reflexivity.
    + cbn [scan_go]. rewrite (proj2 (Nat.leb_le _ _) Hmax). reflexivity.
  - cbn [app scan_go]. destruct (Nat.leb_spec maxScanTokenSize n) as [H|H]; [reflexivity|].
    rewrite (proj2 (Z.eqb_neq b 10)) by (intros ->; apply HL; left; reflexivity).
    apply IH.
    + intros H'. apply HL. right. exact H'.
    + simpl. lia.
    + cbn [length] in Hmax. lia.
Qed.

Lemma scan_lines_then_too_long eol Ls L rest :
  (eol = [10] \/ eol = [13; 10]) ->
  Forall plain_line Ls -> ~ In 10 L -> (maxScanTokenSize <= length L)%nat ->
  scan_lines (flat_map (fun l => l ++ eol) Ls ++ L ++ rest) = (Ls, true).
Proof.
  unfold scan_lines. intros Heol HP HL Hmax. induction Ls as [|l Ls IH].
  - change (scan_go (L ++ rest) [] 0 = ([], true)).
    apply scan_go_too_long; [exact HL | reflexivity | exact Hmax].
  - inversion HP as [|? ? (H10 & H13 & Hlen) HP']; subst.
    simpl flat_map. rewrite <- !app_assoc. destruct Heol as [-> | ->]; cbn [app].
    + rewrite scan_go_line by (try exact H10; lia).
      rewrite IH by exact HP'. simpl. rewrite dropCR_plain by exact H13. reflexivity.
    + assert (E : forall X, l ++ 13 :: 10 :: X = (l ++ [13]) ++ 10 :: X)
        by (intros X; rewrite <- app_assoc; reflexivity).
      rewrite E, scan_go_line.
      * rewrite IH by exact HP'. simpl. rewrite dropCR_cr. reflexivity.
      * rewrite in_app_iff. simpl. intros [H | [H | H]]; [exact (H10 H) | lia | exact H].
      * rewrite length_app. simpl. lia.
Qed.

(** A line of [bufio.MaxScanTokenSize] bytes or more stops the scanner:
    the entries before it are read as usual, nothing from that line on
    is read, and the reader sends the scanner's error
    ["bufio.Scanner: token too long"] before [cdone]; lines end in LF or
    in CRLF. *)
Theorem too_long_line_stops_reading (hardGaps : bool) (eol : list Z)
        (entries : list (list Z * list (list Z))) (L rest : list Z) :
  (eol = [10] \/ eol = [13; 10]) ->
  entries <> [] -> Forall fasta_entry_ok entries ->
  ~ In 10 L -> (maxScanTokenSize <= length L)%nat ->
  readEncodeAlignment hardGaps (fasta_text eol entries ++ L ++ rest) =
    (map EvRecord (fasta_records (encoding hardGaps) 0 entries)
       ++ [EvError "bufio.Scanner: token too long"; EvDone], None).
Proof.
  intros Heol Hne H HL Hmax. destruct entries as [|e es]; [contradiction|].
  unfold readEncodeAlignment.
  assert (HP : Forall plain_line (flat_map (fun e => (ch ">" :: fst e) :: snd e) (e :: es))).
  { apply List.Forall_forall. intros l Hl. apply in_flat_map in Hl.
    destruct Hl as (e' & He' & Hl).
    destruct (proj1 (List.Forall_forall _ _) H e' He') as (Hh & _ & Hs).
    destruct Hl as [<- | Hl]; [exact Hh|].
    exact (proj1 (proj1 (List.Forall_forall _ _) Hs l Hl)). }
  rewrite fasta_text_lines, (scan_lines_then_too_long eol _ L rest Heol HP HL Hmax).
  inversion H as [|? ? (_ & Hf & Hs) H']; subst.
  destruct (first_field (fst e)) as [i'|] eqn:Ef; [|contradiction].
  simpl flat_map. cbn [read_loop read_step first init_state].
  rewrite Z.eqb_refl. unfold set_header. cbn [tl seqBuffer counter].
  rewrite Ef.
  assert (Hs' : Forall (fun l => match l with b :: _ => b <> ch ">" | [] => False end) (snd e)).
  { apply List.Forall_forall. intros l Hl. apply (proj1 (List.Forall_forall _ _) Hs l Hl). }
  rewrite read_seq_lines by exact Hs'. rewrite read_entries by exact H'. simpl.
  unfold fasta_id. rewrite Ef. reflexivity.
Qed.

Lemma too_long_line_stops_reading_witness :
  let entries := [([97], [[65; 67]])] in
  (([13; 10] = [10] \/ [13; 10] = [13; 10]) /\
   entries <> [] /\ Forall fasta_entry_ok entries /\
   ~ In 10 (repeat 65 maxScanTokenSize) /\
   (maxScanTokenSize <= length (repeat 65 maxScanTokenSize))%nat) /\
  readEncodeAlignment false (fasta_text [13; 10] entries ++ repeat 65 maxScanTokenSize ++ [10; 62]) =
    (map EvRecord (fasta_records (encoding false) 0 entries)
       ++ [EvError "bufio.Scanner: token too long"; EvDone], None).
Proof.
  intros entries.
  assert (H0 : [13; 10] = [10] \/ [13; 10] = [13; 10]) by (right; reflexivity).
  assert (H1 : entries <> []) by discriminate.
  assert (H2 : Forall fasta_entry_ok entries).
  { repeat first [ apply List.Forall_nil | apply List.Forall_cons
                 | progress unfold fasta_entry_ok, plain_line | apply conj
                 | apply Nat.ltb_lt; vm_compute; reflexivity
                 | vm_compute; discriminate
                 | simpl; intuition discriminate ]. }
  assert (H3 : ~ In 10 (repeat 65 maxScanTokenSize))
    by (intros H; apply repeat_spec in H; discriminate).
  assert (H4 : (maxScanTokenSize <= length (repeat 65 maxScanTokenSize))%nat)
    by (rewrite repeat_length; apply Nat.le_refl).
  split; [repeat split; assumption|].
  exact (too_long_line_stops_reading false [13; 10] entries _ [10; 62] H0 H1 H2 H3 H4).
Defined.

(** ** The reference phase of [snps] *)

Lemma fasta_records_snoc enc k es e :
  fasta_records enc k (es ++ [e]) =
  fasta_records enc k es ++
    [mkRecord (fasta_id (fst e)) (fst e) (map enc (concat (snd e))) (k + length es)].
Proof.
  revert k. induction es as [|e' es IH]; intros k; simpl.
  - rewrite Nat.add_0_r. reflexivity.
  - rewrite IH. replace (S k + length es)%nat with (k + S (length es))%nat by lia.
    reflexivity.
Qed.

Lemma ref_loop_last r rs FR :
  ref_loop r (map EvRecord (rs ++ [FR]) ++ [EvDone]) = Some (inr (Seq FR)).
Proof.
  revert r. induction rs as [|FR' rs IH]; intros r; [reflexivity|]. simpl. apply IH.
Qed.

(** The reference loop of [snps] keeps the [Seq] of every record it
    receives, so on a well-formed reference file the reference is the
    encoded sequence of its last entry. *)
Theorem reference_is_last_record (hardGaps : bool) (eol : list Z)
        (es : list (list Z * list (list Z))) (e : list Z * list (list Z)) :
  (eol = [10] \/ eol = [13; 10]) -> Forall fasta_entry_ok (es ++ [e]) ->
  reference_phase hardGaps (fasta_text eol (es ++ [e])) =
    Some (inr (map (encoding hardGaps) (concat (snd e)))).
Proof.
  intros Heol H. unfold reference_phase.
  rewrite read_fasta_entries by (try exact Heol; try exact H; destruct es; discriminate).
  rewrite fasta_records_snoc. apply ref_loop_last.
Qed.

Lemma reference_is_last_record_witness :
  let es := [([114; 49], [[65; 67; 71]])] in
  let e := ([114; 50], [[65]; [84]]) in
  (([10] = [10] \/ [10] = [13; 10]) /\ Forall fasta_entry_ok (es ++ [e])) /\
  reference_phase true (fasta_text [10] (es ++ [e])) =
    Some (inr (map (encoding true) (concat (snd e)))).
Proof.
  intros es e.
  assert (H1 : [10] = [10] \/ [10] = [13; 10]) by (left; reflexivity).
  assert (H2 : Forall fasta_entry_ok (es ++ [e])).
  { repeat first [ apply List.Forall_nil | apply List.Forall_cons
                 | progress unfold fasta_entry_ok, plain_line | apply conj
                 | apply Nat.ltb_lt; vm_compute; reflexivity
                 | vm_compute; discriminate
                 | simpl; intuition discriminate ]. }
  split; [split; assumption|].
  exact (reference_is_last_record true [10] es e H1 H2).
Defined.


